(** * MazeGenerator: Randomized Prim's algorithm on a rectangular grid

    A shallow embedding of [MazeGenerator/main.cpp] and the properties of
    its maze generation and printing.

    C++ [int] values are modelled in [Z].  The only arithmetic on
    coordinates is the [+ 2] and [- 2] of
    [frontierCellsForPositionMatchingCell], applied to positions of the
    grid, and the [+ 1] and [- 1] of [positionBetweenFrontierAndCell],
    whose result lies between two positions of the grid.  So every
    coordinate stays between [-2] and one more than a grid dimension
    (lemma [offsets_range]), and nothing leaves the range of [int] on a
    grid whose dimensions are at most [INT_MAX - 2].

    The calls of [rand()] are modelled as reads of a fixed sequence
    [rnd : nat -> Z] (the sequence that [srand] selects), together with a
    counter of the calls made so far; [rand()] returns a value between 0
    and [RAND_MAX], which is the hypothesis [0 <= rnd k] of the theorems.

    The [while] loop is modelled with a bound ([fuel]) on the number of its
    iterations; reaching the bound is the fault [OutOfFuel], and the
    theorems show that a bound of [width * height] is never reached. *)

From stdpp Require Import base tactics option list numbers strings.
From Stdlib Require Import ZArith Lia.

Open Scope Z_scope.

(** ** Data model *)

(** [enum class Cell { Wall, Path }] *)
Inductive Cell : Type := Wall | Path.

#[global] Instance Cell_eq_dec : EqDecision Cell.
Proof. solve_decision. Defined.

#[global] Instance Cell_inhabited : Inhabited Cell := populate Wall.

(** [struct Position { int row, col; }] *)
Record Position : Type := mkPosition { row : Z; col : Z }.

#[global] Instance Position_eq_dec : EqDecision Position.
Proof. solve_decision. Defined.

#[global] Instance Position_inhabited : Inhabited Position :=
  populate (mkPosition 0 0).

(** [Position::operator==]: [this == pos]. *)
Definition Position_eqb (this pos : Position) : bool :=
  (row pos =? row this) && (col pos =? col this).

(** The data members of [class Grid]. *)
Record Grid : Type := mkGrid {
  _cells : list (list Cell);
  _width : Z;
  _height : Z
}.

(** [Grid::Grid(int width, int height)]: the two [for] loops push
    [Cell::Wall] cells into a row and rows into [_cells]. *)
Definition Grid_new (width height : Z) : Grid :=
  {| _cells :=
       Nat.iter (Z.to_nat height)
         (λ cells,
            cells ++ [Nat.iter (Z.to_nat width) (λ row, row ++ [Wall]) []])
         [];
     _width := width;
     _height := height |}.

(** ** The machine: grid object, random source, standard output *)

Record Machine : Type := mkMachine {
  grid : Grid;
  (** number of [rand()] calls made so far *)
  randCalls : nat;
  (** arguments of the calls of [cellAtPosition], oldest first *)
  accessed : list Position;
  (** what has been written to [std::cout] *)
  stdout : string
}.

(** How a run can stop without completing. *)
Inductive Fault : Type :=
  | AssertionFailed   (* [assert(isPositionInGrid(pos))] fired *)
  | IndexOutOfRange   (* a [std::vector] was indexed past its end *)
  | OutOfFuel.        (* the model's bound on loop iterations was reached *)

Inductive Result (A : Type) : Type :=
  | Ok (a : A) (m : Machine)
  | Abort (f : Fault).
Arguments Ok {A} a m.
Arguments Abort {A} f.

Definition M (A : Type) : Type := Machine → Result A.

Definition ret {A} (a : A) : M A := λ m, Ok a m.

Definition bind {A B} (c : M A) (k : A → M B) : M B :=
  λ m, match c m with
       | Ok a m' => k a m'
       | Abort f => Abort f
       end.

Notation "'do' x <- c ;; k" := (bind c (λ x, k))
  (at level 10, x binder, c at level 99, k at level 200,
   format "'[v' 'do'  x  <-  c ;;  '/' k ']'").

Definition getGrid : M Grid := λ m, Ok (grid m) m.

Definition putGrid (g : Grid) : M unit :=
  λ m, Ok tt (mkMachine g (randCalls m) (accessed m) (stdout m)).

Definition logAccess (pos : Position) : M unit :=
  λ m, Ok tt (mkMachine (grid m) (randCalls m) (accessed m ++ [pos]) (stdout m)).

Definition cout (s : string) : M unit :=
  λ m, Ok tt (mkMachine (grid m) (randCalls m) (accessed m) (stdout m +:+ s)).

Definition fault {A} (f : Fault) : M A := λ _, Abort f.

(** ** Grid helpers *)

(** [Grid::isPositionInGrid] *)
Definition isPositionInGrid (g : Grid) (pos : Position) : bool :=
  (0 <=? row pos) && (row pos <? _height g) &&
  (0 <=? col pos) && (col pos <? _width g).

(** [_cells[pos.row][pos.col]] as a lookup in the nested vectors. *)
Definition cellsLookup (g : Grid) (pos : Position) : option Cell :=
  _cells g !! Z.to_nat (row pos) ≫= (.!! Z.to_nat (col pos)).

(** [_cells[pos.row][pos.col] = c] *)
Definition cellsStore (g : Grid) (pos : Position) (c : Cell) : Grid :=
  {| _cells :=
       alter (λ r, <[Z.to_nat (col pos) := c]> r) (Z.to_nat (row pos)) (_cells g);
     _width := _width g;
     _height := _height g |}.

(** [Grid::cellAtPosition], used as an rvalue: [cellAtPosition(pos) == cell]. *)
Definition cellAtPosition (pos : Position) : M Cell :=
  do _ <- logAccess pos;;
  do g <- getGrid;;
  if isPositionInGrid g pos then
    match cellsLookup g pos with
    | Some c => ret c
    | None => fault IndexOutOfRange
    end
  else fault AssertionFailed.

(** [Grid::cellAtPosition], used as an lvalue: [cellAtPosition(pos) = c]. *)
Definition cellAtPosition_assign (pos : Position) (c : Cell) : M unit :=
  do _ <- logAccess pos;;
  do g <- getGrid;;
  if isPositionInGrid g pos then
    match cellsLookup g pos with
    | Some _ => putGrid (cellsStore g pos c)
    | None => fault IndexOutOfRange
    end
  else fault AssertionFailed.

(** One of the four blocks of [frontierCellsForPositionMatchingCell]:
    [if (isPositionInGrid(p) && cellAtPosition(p) == cell) frontier.push_back(p);] *)
Definition pushIfMatching (frontier : list Position) (p : Position) (cell : Cell)
  : M (list Position) :=
  do g <- getGrid;;
  if isPositionInGrid g p then
    do c <- cellAtPosition p;;
    if bool_decide (c = cell) then ret (frontier ++ [p]) else ret frontier
  else ret frontier.

(** [Grid::frontierCellsForPositionMatchingCell] *)
Definition frontierCellsForPositionMatchingCell (pos : Position) (cell : Cell)
  : M (list Position) :=
  let frontier := [] in
  let leftPos := mkPosition (row pos) (col pos - 2) in
  do frontier <- pushIfMatching frontier leftPos cell;;
  let rightPos := mkPosition (row pos) (col pos + 2) in
  do frontier <- pushIfMatching frontier rightPos cell;;
  let topPos := mkPosition (row pos - 2) (col pos) in
  do frontier <- pushIfMatching frontier topPos cell;;
  let bottomPos := mkPosition (row pos + 2) (col pos) in
  do frontier <- pushIfMatching frontier bottomPos cell;;
  ret frontier.

(** [Grid::positionBetweenFrontierAndCell] *)
Definition positionBetweenFrontierAndCell (frontierPos cellPos : Position)
  : Position :=
  if row cellPos <? row frontierPos then mkPosition (row cellPos + 1) (col cellPos)
  else if row cellPos >? row frontierPos then mkPosition (row cellPos - 1) (col cellPos)
  else if col cellPos <? col frontierPos then mkPosition (row cellPos) (col cellPos + 1)
  else if col cellPos >? col frontierPos then mkPosition (row cellPos) (col cellPos - 1)
  else cellPos.

(** ** Standard algorithms on vectors *)

(** [std::find(v.begin(), v.end(), p) - v.begin()]: the index of the first
    element equal to [p], or [v.size()] for [v.end()]. *)
Fixpoint std_find (v : list Position) (p : Position) : nat :=
  match v with
  | [] => 0%nat
  | x :: v' => if Position_eqb x p then 0%nat else S (std_find v' p)
  end.

(** [v.erase(std::remove_if(v.begin(), v.end(), pred), v.end())] *)
Fixpoint erase_remove_if (pred : Position → bool) (v : list Position)
  : list Position :=
  match v with
  | [] => []
  | x :: v' =>
      if pred x then erase_remove_if pred v' else x :: erase_remove_if pred v'
  end.

(** ** Maze generation *)

Section Generation.

(** The values returned by the successive calls of [rand()]. *)
Variable rnd : nat → Z.

Definition rand : M Z :=
  λ m, Ok (rnd (randCalls m))
          (mkMachine (grid m) (S (randCalls m)) (accessed m) (stdout m)).

(** Lines 82-84: pick one of the frontier cells at random and make it a
    path; the result is [randomFrontierIndex] and [randomFrontierPos].
    [rand()] is never negative, so the remainder that C++ takes in
    [size_t] is the remainder [Z.rem] of the two numbers. *)
Definition pickFrontierCell (frontierCells : list Position)
  : M (Z * Position) :=
  do r <- rand;;
  let randomFrontierIndex := Z.rem r (Z.of_nat (length frontierCells)) in
  match frontierCells !! Z.to_nat randomFrontierIndex with
  | None => fault IndexOutOfRange
  | Some randomFrontierPos =>
      do _ <- cellAtPosition_assign randomFrontierPos Path;;
      ret (randomFrontierIndex, randomFrontierPos)
  end.

(** Lines 88-93: [if (!neighbours.empty()) { ... }], connecting the two
    paths by making the in-between cell a path as well. *)
Definition carvePassage (neighbours : list Position)
    (randomFrontierPos : Position) : M unit :=
  if bool_decide (neighbours = []) then ret tt
  else
    do r <- rand;;
    match neighbours !! Z.to_nat (Z.rem r (Z.of_nat (length neighbours))) with
    | None => fault IndexOutOfRange
    | Some randomNeighbour =>
        let inBetweenPos :=
          positionBetweenFrontierAndCell randomNeighbour randomFrontierPos in
        cellAtPosition_assign inBetweenPos Path
    end.

(** The lambda [cellAlreadyInFrontier] of lines 100-102. *)
Definition cellAlreadyInFrontier (frontierCells : list Position)
    (p : Position) : bool :=
  negb (std_find frontierCells p =? length frontierCells)%nat.

(** Lines 104-111: drop the new frontier cells that are in the frontier
    list already, append the others and erase the processed cell. *)
Definition updateFrontier (frontierCells : list Position)
    (randomFrontierIndex : Z) (newFrontier : list Position) : list Position :=
  let newFrontier :=
    erase_remove_if (cellAlreadyInFrontier frontierCells) newFrontier in
  let frontierCells := frontierCells ++ newFrontier in
  delete (Z.to_nat randomFrontierIndex) frontierCells.

(** The body of the [while] loop of [Grid::generateMaze]. *)
Definition generateMaze_body (frontierCells : list Position)
  : M (list Position) :=
  do picked <- pickFrontierCell frontierCells;;
  let randomFrontierIndex := picked.1 in
  let randomFrontierPos := picked.2 in
  do neighbours <- frontierCellsForPositionMatchingCell randomFrontierPos Path;;
  do _ <- carvePassage neighbours randomFrontierPos;;
  do newFrontier <- frontierCellsForPositionMatchingCell randomFrontierPos Wall;;
  ret (updateFrontier frontierCells randomFrontierIndex newFrontier).

(** The [while (!frontierCells.empty())] loop, with a bound [fuel] on the
    number of iterations; the result is the frontier at exit and the number
    of iterations performed. *)
Fixpoint generateMaze_loop (fuel : nat) (frontierCells : list Position)
    (iterations : nat) : M (list Position * nat) :=
  match frontierCells with
  | [] => ret (frontierCells, iterations)
  | _ :: _ =>
      match fuel with
      | O => fault OutOfFuel
      | S fuel' =>
          do frontierCells <- generateMaze_body frontierCells;;
          generateMaze_loop fuel' frontierCells (S iterations)
      end
  end.

(** What a completed run of [generateMaze] is observed to have done. *)
Record Run : Type := mkRun {
  startPos : Position;
  finalFrontier : list Position;
  iterations : nat
}.

(** Lines 69-78 of [Grid::generateMaze]: the random starting position
    and the initial set of frontier cells. *)
Definition generateMaze_start : M (Position * list Position) :=
  let frontierCells := [] in
  do g <- getGrid;;
  do r1 <- rand;;
  do r2 <- rand;;
  let startPos := mkPosition (Z.rem r1 (_height g)) (Z.rem r2 (_width g)) in
  do _ <- cellAtPosition_assign startPos Path;;
  do frontier <- frontierCellsForPositionMatchingCell startPos Wall;;
  ret (startPos, frontierCells ++ frontier).

(** [Grid::generateMaze] *)
Definition generateMaze (fuel : nat) : M Run :=
  do init <- generateMaze_start;;
  do res <- generateMaze_loop fuel init.2 0%nat;;
  ret (mkRun init.1 res.1 res.2).

End Generation.

(** ** Printing *)

(** The [switch] in [Grid::print]. *)
Definition glyph (cell : Cell) : string :=
  match cell with
  | Wall => "█"
  | Path => " "
  end.

Definition endl : string := String (Ascii.ascii_of_nat 10) EmptyString.

(** [for (auto x : v) body(x);] *)
Fixpoint for_each {A} (v : list A) (body : A → M unit) : M unit :=
  match v with
  | [] => ret tt
  | x :: v' => do _ <- body x;; for_each v' body
  end.

(** [Grid::print] *)
Definition print : M unit :=
  do g <- getGrid;;
  for_each (_cells g) (λ row,
    do _ <- for_each row (λ cell, cout (glyph cell));;
    cout endl).

(** The machine in which [main] constructs its [Grid]. *)
Definition initial (width height : Z) : Machine :=
  mkMachine (Grid_new width height) 0 [] "".

(** [main]: [Grid grid(30, 20); grid.generateMaze(); grid.print(); return 0;] *)
Definition main (rnd : nat → Z) (fuel : nat) : Result Z :=
  (do _ <- generateMaze rnd fuel;;
   do _ <- print;;
   ret 0) (initial 30 20).

(** ** Vocabulary of the properties *)

(** The position is inside the grid: the condition of [isPositionInGrid]. *)
Definition InGrid (g : Grid) (pos : Position) : Prop :=
  0 ≤ row pos < _height g ∧ 0 ≤ col pos < _width g.

#[global] Instance InGrid_dec g pos : Decision (InGrid g pos).
Proof. unfold InGrid. apply _. Defined.

(** The class invariant of [Grid]: [_cells] has [_height] rows of
    [_width] cells each. *)
Definition wf (g : Grid) : Prop :=
  length (_cells g) = Z.to_nat (_height g) ∧
  Forall (λ r, length r = Z.to_nat (_width g)) (_cells g).

(** The state of the cell at a position. *)
Definition cellOf (g : Grid) (pos : Position) : Cell :=
  default Wall (cellsLookup g pos).

Definition isPath (g : Grid) (pos : Position) : Prop :=
  InGrid g pos ∧ cellOf g pos = Path.

(** The four positions two steps away, in the order in which
    [frontierCellsForPositionMatchingCell] visits them. *)
Definition offsets (pos : Position) : list Position :=
  [ mkPosition (row pos) (col pos - 2);
    mkPosition (row pos) (col pos + 2);
    mkPosition (row pos - 2) (col pos);
    mkPosition (row pos + 2) (col pos) ].

(** The in-grid positions two steps away whose cell is [cell]. *)
Definition matching (g : Grid) (pos : Position) (cell : Cell) : list Position :=
  filter (λ p, InGrid g p ∧ cellOf g p = cell) (offsets pos).

(** Four-directional, single-step adjacency. *)
Definition adjacent (p q : Position) : Prop :=
  (row p = row q ∧ (col p = col q + 1 ∨ col q = col p + 1)) ∨
  (col p = col q ∧ (row p = row q + 1 ∨ row q = row p + 1)).

(** [connected g p q]: there is a sequence of adjacent Path cells of [g]
    from [p] to [q]. *)
Inductive connected (g : Grid) : Position → Position → Prop :=
  | connected_refl p : isPath g p → connected g p p
  | connected_step p q r :
      connected g p q → adjacent q r → isPath g r → connected g p r.

(** No cell of [g] that is a Path is anything else in [g']. *)
Definition grows (g g' : Grid) : Prop :=
  _width g' = _width g ∧ _height g' = _height g ∧
  ∀ p, InGrid g p → cellOf g p = Path → cellOf g' p = Path.

(** Two positions on the same step-2 lattice. *)
Definition sameLattice (p q : Position) : Prop :=
  row p mod 2 = row q mod 2 ∧ col p mod 2 = col q mod 2.

#[global] Instance sameLattice_dec p q : Decision (sameLattice p q).
Proof. unfold sameLattice. apply _. Defined.

(** The coordinates below [n] with the parity of [x], in increasing order. *)
Definition latticeCoords (x n : Z) : list Z :=
  (λ i, x mod 2 + 2 * i) <$> seqZ 0 ((n - x mod 2 + 1) `div` 2).

(** The positions of the grid on the step-2 lattice of [start]. *)
Definition latticePositions (g : Grid) (start : Position) : list Position :=
  r ← latticeCoords (row start) (_height g);
  mkPosition r <$> latticeCoords (col start) (_width g).

(** The number of Wall cells on the lattice of [start]. *)
Definition latticeWalls (g : Grid) (start : Position) : nat :=
  length (filter (λ p, cellOf g p = Wall) (latticePositions g start)).

(** The states in which the [while] loop of [generateMaze] evaluates its
    condition when it is run on a new [width] by [height] grid:
    [LoopState rnd width height start m frontierCells n] is the state
    after [n] iterations. *)
Inductive LoopState (rnd : nat → Z) (width height : Z) (start : Position)
  : Machine → list Position → nat → Prop :=
  | LoopState_enter m frontierCells :
      generateMaze_start rnd (initial width height) = Ok (start, frontierCells) m →
      LoopState rnd width height start m frontierCells 0
  | LoopState_iterate m frontierCells n m' frontierCells' :
      LoopState rnd width height start m frontierCells n →
      frontierCells ≠ [] →
      generateMaze_body rnd frontierCells m = Ok frontierCells' m' →
      LoopState rnd width height start m' frontierCells' (S n).

(** The invariant of the [while] loop on the grid and the frontier list. *)
Record Inv (start : Position) (g : Grid) (frontierCells : list Position)
  : Prop := mkInv {
  inv_wf : wf g;
  inv_start : isPath g start;
  inv_in_grid : ∀ f, f ∈ frontierCells → InGrid g f;
  inv_lattice : ∀ f, f ∈ frontierCells → sameLattice f start;
  inv_wall : ∀ f, f ∈ frontierCells → cellOf g f = Wall;
  inv_next_to_path : ∀ f, f ∈ frontierCells → ∃ n, n ∈ offsets f ∧ isPath g n;
  inv_NoDup : NoDup frontierCells;
  inv_connected : ∀ p, isPath g p → connected g start p
}.

(** The invariant of the loop on the whole machine, after [n] iterations
    on a [width] by [height] grid. *)
Definition LoopInv (width height : Z) (start : Position) (m : Machine)
    (frontierCells : list Position) (n : nat) : Prop :=
  Inv start (grid m) frontierCells ∧
  Forall (InGrid (grid m)) (accessed m) ∧
  _width (grid m) = width ∧ _height (grid m) = height ∧
  (n + latticeWalls (grid m) start + 1)%nat =
    length (latticePositions (Grid_new width height) start).

(** The text that the specification asks of a rendering: for each row from
    the top, the glyphs of its [_width] cells in column order, then a
    newline. *)
Definition renderLine (g : Grid) (r : Z) : string :=
  foldr String.append ""
    ((λ c, glyph (cellOf g (mkPosition r c))) <$> seqZ 0 (_width g)) +:+ endl.

Definition render (g : Grid) : string :=
  foldr String.append "" (renderLine g <$> seqZ 0 (_height g)).

(** The machine after further calls of [cellAtPosition], and with
    another grid. *)
Definition logged (m : Machine) (l : list Position) : Machine :=
  mkMachine (grid m) (randCalls m) (accessed m ++ l) (stdout m).

Definition withGrid (m : Machine) (g : Grid) : Machine :=
  mkMachine g (randCalls m) (accessed m) (stdout m).

Definition drawn (m : Machine) (n : nat) : Machine :=
  mkMachine (grid m) (n + randCalls m) (accessed m) (stdout m).

(** The machine after [s] has been written to [std::cout]; nothing else
    changes. *)
Definition emitted (m : Machine) (s : string) : Machine :=
  mkMachine (grid m) (randCalls m) (accessed m) (stdout m +:+ s).

(** [n] copies of [s], one after the other. *)
Definition copies (n : nat) (s : string) : string :=
  foldr String.append "" (replicate n s).

(** Two positions exactly 2 apart in exactly one axis. *)
Definition twoApart (a b : Position) : Prop :=
  (row a = row b ∧ Z.abs (col a - col b) = 2) ∨
  (col a = col b ∧ Z.abs (row a - row b) = 2).

(** [callTimes n c]: [n] calls of [c] in sequence. *)
Fixpoint callTimes (n : nat) (c : M unit) : M unit :=
  match n with
  | O => ret tt
  | S n' => do _ <- c;; callTimes n' c
  end.

(** The number of single steps between two positions. *)
Definition dist (p q : Position) : Z :=
  Z.abs (row p - row q) + Z.abs (col p - col q).

(** All the positions of the grid, row by row. *)
Definition allPositions (g : Grid) : list Position :=
  r ← seqZ 0 (_height g); mkPosition r <$> seqZ 0 (_width g).

(** The number of Path cells of the grid. *)
Definition pathCount (g : Grid) : nat :=
  length (filter (λ p, cellOf g p = Path) (allPositions g)).

(** The shape of the maze while it grows: Path cells are on the lattice of
    the starting cell or directly between two Path cells of that lattice,
    and the frontier list holds every wall two steps from a Path cell of
    the lattice. *)
Record Shape (start : Position) (g : Grid) (frontierCells : list Position)
  : Prop := mkShape {
  shape_pillars : ∀ p, isPath g p →
    row p mod 2 = row start mod 2 ∨ col p mod 2 = col start mod 2;
  shape_passage : ∀ p, isPath g p → ¬ sameLattice p start →
    ∀ a, adjacent a p → sameLattice a start → isPath g a;
  shape_closed : ∀ p, isPath g p → sameLattice p start →
    ∀ q, q ∈ offsets p → InGrid g q → cellOf g q = Wall → q ∈ frontierCells
}.

(** What the loop keeps of the counts after [n] iterations. *)
Definition LoopCounts (start : Position) (m : Machine)
    (frontierCells : list Position) (n : nat) : Prop :=
  Shape start (grid m) frontierCells ∧
  pathCount (grid m) = (2 * n + 1)%nat ∧
  randCalls m = (2 + 2 * n)%nat.

(** Linear arithmetic with the divisions and remainders by 2 of the
    lattice. *)
Ltac zmod := unfold sameLattice, InGrid, adjacent in *; simpl in *;
  Z.div_mod_to_equations; lia.

(** * Properties *)

(** ** The grid as a two-dimensional array *)

Lemma isPositionInGrid_decide g pos :
  isPositionInGrid g pos = bool_decide (InGrid g pos).
Proof.
  unfold isPositionInGrid, InGrid.
  destruct (bool_decide_reflect (0 ≤ row pos < _height g ∧ 0 ≤ col pos < _width g)) as [H|H].
  - repeat (apply andb_true_intro; split); lia.
  - apply not_true_is_false. intros Hb.
    repeat (apply andb_prop in Hb as [Hb ?]). lia.
Qed.

Lemma iter_push_back {A} (x : A) n : Nat.iter n (λ v, v ++ [x]) [] = replicate n x.
Proof.
  induction n as [|n IH]; [done|].
  simpl. rewrite IH. clear IH.
  induction n as [|n IH]; [done|]. simpl. by rewrite IH.
Qed.

Lemma cells_Grid_new width height :
  _cells (Grid_new width height) =
  replicate (Z.to_nat height) (replicate (Z.to_nat width) Wall).
Proof. unfold Grid_new. simpl. by rewrite !iter_push_back. Qed.

Lemma wf_Grid_new width height : wf (Grid_new width height).
Proof.
  split; rewrite cells_Grid_new.
  - by rewrite length_replicate.
  - apply Forall_replicate. by rewrite length_replicate.
Qed.

Lemma cellOf_Grid_new width height pos : cellOf (Grid_new width height) pos = Wall.
Proof.
  unfold cellOf, cellsLookup. rewrite cells_Grid_new.
  destruct (replicate _ _ !! Z.to_nat (row pos)) as [r|] eqn:Hr; [|done].
  apply lookup_replicate in Hr as [-> _]. simpl.
  destruct (replicate _ _ !! Z.to_nat (col pos)) as [c|] eqn:Hc; [|done].
  by apply lookup_replicate in Hc as [-> _].
Qed.

Lemma cellsLookup_InGrid g pos :
  wf g → InGrid g pos → cellsLookup g pos = Some (cellOf g pos).
Proof.
  intros [Hlen Hrows] [Hr Hc]. unfold cellOf, cellsLookup.
  destruct (lookup_lt_is_Some_2 (_cells g) (Z.to_nat (row pos))) as [r Hlr]; [lia|].
  rewrite Hlr. simpl.
  assert (length r = Z.to_nat (_width g)) as Hw.
  { eapply Forall_lookup_1 in Hrows; eauto. }
  destruct (lookup_lt_is_Some_2 r (Z.to_nat (col pos))) as [c Hlc]; [lia|].
  by rewrite Hlc.
Qed.

Lemma wf_cellsStore g pos c : wf g → wf (cellsStore g pos c).
Proof.
  intros [Hlen Hrows]. split; simpl.
  - by rewrite length_alter.
  - apply Forall_alter; [done|]. intros r _ Hr. by rewrite length_insert.
Qed.

Lemma InGrid_cellsStore g pos c q : InGrid (cellsStore g pos c) q ↔ InGrid g q.
Proof. done. Qed.

Lemma cellOf_cellsStore_eq g pos c :
  wf g → InGrid g pos → cellOf (cellsStore g pos c) pos = c.
Proof.
  intros Hwf Hin. pose proof (cellsLookup_InGrid g pos Hwf Hin) as Hl.
  unfold cellOf, cellsLookup in *. simpl.
  rewrite list_lookup_alter_eq.
  destruct (_cells g !! Z.to_nat (row pos)) as [r|]; [|done]. simpl in *.
  rewrite list_lookup_insert_eq; [done|].
  apply lookup_lt_is_Some. by rewrite Hl.
Qed.

Lemma cellOf_cellsStore_ne g pos c q :
  InGrid g pos → InGrid g q → pos ≠ q →
  cellOf (cellsStore g pos c) q = cellOf g q.
Proof.
  intros [Hr Hc] [Hr' Hc'] Hne. unfold cellOf, cellsLookup. simpl.
  destruct (decide (row pos = row q)) as [Heq|Hrow].
  - rewrite Heq, list_lookup_alter_eq.
    destruct (_cells g !! Z.to_nat (row q)) as [r|]; [|done]. simpl.
    rewrite list_lookup_insert_ne; [done|].
    intros Hcol. apply Hne. destruct pos, q; simpl in *. f_equal; lia.
  - rewrite list_lookup_alter_ne; [done|]. lia.
Qed.

Lemma grows_refl g : grows g g.
Proof. by repeat split. Qed.

Lemma grows_trans g1 g2 g3 : grows g1 g2 → grows g2 g3 → grows g1 g3.
Proof.
  intros (Hw & Hh & H12) (Hw' & Hh' & H23). repeat split; [congruence..|].
  intros p Hin Hp. apply H23; [|by apply H12].
  unfold InGrid in *. by rewrite Hw, Hh.
Qed.

Lemma grows_cellsStore g pos :
  wf g → InGrid g pos → grows g (cellsStore g pos Path).
Proof.
  intros Hwf Hin. repeat split. intros p Hp Hpath.
  destruct (decide (pos = p)) as [->|Hne].
  - by apply cellOf_cellsStore_eq.
  - by rewrite cellOf_cellsStore_ne.
Qed.

Lemma grows_InGrid g g' p : grows g g' → InGrid g' p ↔ InGrid g p.
Proof. intros (Hw & Hh & _). unfold InGrid. by rewrite Hw, Hh. Qed.

(** ** What the grid operations compute *)

Lemma logged_logged m l1 l2 : logged (logged m l1) l2 = logged m (l1 ++ l2).
Proof. unfold logged. simpl. by rewrite app_assoc. Qed.

Lemma logged_nil m : logged m [] = m.
Proof. destruct m. unfold logged. simpl. by rewrite app_nil_r. Qed.

Lemma cellAtPosition_ok pos m :
  wf (grid m) → InGrid (grid m) pos →
  cellAtPosition pos m = Ok (cellOf (grid m) pos) (logged m [pos]).
Proof.
  intros Hwf Hin. unfold cellAtPosition, bind, logAccess, getGrid. simpl.
  rewrite isPositionInGrid_decide, bool_decide_eq_true_2 by done.
  by rewrite cellsLookup_InGrid.
Qed.

Lemma cellAtPosition_assign_ok pos c m :
  wf (grid m) → InGrid (grid m) pos →
  cellAtPosition_assign pos c m =
  Ok tt (withGrid (logged m [pos]) (cellsStore (grid m) pos c)).
Proof.
  intros Hwf Hin. unfold cellAtPosition_assign, bind, logAccess, getGrid. simpl.
  rewrite isPositionInGrid_decide, bool_decide_eq_true_2 by done.
  by rewrite cellsLookup_InGrid.
Qed.

Lemma pushIfMatching_ok frontier p cell m :
  wf (grid m) →
  pushIfMatching frontier p cell m =
  Ok (frontier ++ filter (λ q, InGrid (grid m) q ∧ cellOf (grid m) q = cell) [p])
     (logged m (filter (InGrid (grid m)) [p])).
Proof.
  intros Hwf. unfold pushIfMatching, bind, getGrid.
  rewrite isPositionInGrid_decide.
  rewrite !filter_cons, !filter_nil.
  destruct (decide (InGrid (grid m) p)) as [Hin|Hout].
  - rewrite bool_decide_eq_true_2 by done.
    rewrite cellAtPosition_ok by done.
    destruct (decide (cellOf (grid m) p = cell)) as [Hc|Hc].
    + rewrite bool_decide_eq_true_2, decide_True by done. done.
    + rewrite bool_decide_eq_false_2, decide_False by tauto.
      unfold ret. by rewrite app_nil_r.
  - rewrite bool_decide_eq_false_2, decide_False by tauto.
    unfold ret. by rewrite app_nil_r, logged_nil.
Qed.

Lemma frontierCellsForPositionMatchingCell_ok pos cell m :
  wf (grid m) →
  frontierCellsForPositionMatchingCell pos cell m =
  Ok (matching (grid m) pos cell)
     (logged m (filter (InGrid (grid m)) (offsets pos))).
Proof.
  intros Hwf. unfold frontierCellsForPositionMatchingCell, bind.
  rewrite pushIfMatching_ok by done.
  rewrite pushIfMatching_ok by done.
  rewrite pushIfMatching_ok by done.
  rewrite pushIfMatching_ok by done.
  unfold ret, matching, offsets. simpl grid.
  rewrite !logged_logged. f_equal.
  - rewrite <- !app_assoc, <- !filter_app. done.
  - f_equal. rewrite <- !filter_app. done.
Qed.

(** ** The standard algorithms used on the frontier list *)

Lemma Position_eqb_eq x p : Position_eqb x p = true ↔ x = p.
Proof.
  unfold Position_eqb. rewrite andb_true_iff, !Z.eqb_eq.
  destruct x, p; simpl. split; [intros [-> ->]; done | intros [= -> ->]; done].
Qed.

Lemma std_find_end v p : std_find v p = length v ↔ p ∉ v.
Proof.
  induction v as [|x v IH]; simpl.
  - split; [intros _; apply not_elem_of_nil | done].
  - destruct (Position_eqb x p) eqn:He.
    + apply Position_eqb_eq in He. subst x.
      split; [done | intros []; apply list_elem_of_here].
    + assert (p ≠ x) by (intros ->; by rewrite (proj2 (Position_eqb_eq x x)) in He).
      split.
      * intros [= Hf] [?|Hin]%elem_of_cons; [done|]. by apply IH in Hf.
      * intros Hn. f_equal. apply IH. intros Hin. apply Hn. by apply list_elem_of_further.
Qed.

Lemma cellAlreadyInFrontier_spec frontierCells p :
  cellAlreadyInFrontier frontierCells p = true ↔ p ∈ frontierCells.
Proof.
  unfold cellAlreadyInFrontier. rewrite negb_true_iff, Nat.eqb_neq, std_find_end.
  split; [apply dec_stable | tauto].
Qed.

Lemma elem_of_erase_remove_if pred v x :
  x ∈ erase_remove_if pred v ↔ x ∈ v ∧ pred x = false.
Proof.
  induction v as [|y v IH]; simpl.
  - rewrite elem_of_nil. tauto.
  - destruct (pred y) eqn:Hy.
    + rewrite IH, elem_of_cons. split; [tauto|]. intros [[->|?] ?]; [congruence|done].
    + rewrite !elem_of_cons, IH. split; [|tauto]. intros [->|[? ?]]; tauto.
Qed.

Lemma NoDup_erase_remove_if pred v : NoDup v → NoDup (erase_remove_if pred v).
Proof.
  induction 1 as [|y v Hy Hv IH]; simpl; [constructor|].
  destruct (pred y); [done|]. constructor; [|done].
  rewrite elem_of_erase_remove_if. tauto.
Qed.

Lemma elem_of_delete_NoDup {A} (l : list A) i x y :
  NoDup l → l !! i = Some x → y ∈ delete i l ↔ y ∈ l ∧ y ≠ x.
Proof.
  intros Hnd Hi. rewrite delete_take_drop.
  pose proof (take_drop_middle l i x Hi) as Hmid.
  assert (y ∈ l ↔ y ∈ take i l ++ x :: drop (S i) l) as -> by (by rewrite Hmid).
  rewrite <- Hmid in Hnd.
  apply NoDup_app in Hnd as (_ & Htake & Hdrop%NoDup_cons).
  destruct Hdrop as [Hdrop _].
  rewrite !elem_of_app, elem_of_cons. split.
  - intros [Hy|Hy].
    + split; [tauto|]. intros ->. eapply Htake; [done|]. apply list_elem_of_here.
    + split; [tauto|]. intros ->. done.
  - tauto.
Qed.

Lemma NoDup_delete {A} (l : list A) i : NoDup l → NoDup (delete i l).
Proof. intros Hnd. eapply sublist_NoDup; [done|]. apply sublist_delete. Qed.

Lemma updateFrontier_spec frontierCells i f newFrontier :
  NoDup frontierCells → NoDup newFrontier →
  frontierCells !! Z.to_nat i = Some f →
  NoDup (updateFrontier frontierCells i newFrontier) ∧
  ∀ x, x ∈ updateFrontier frontierCells i newFrontier ↔
       x ≠ f ∧ (x ∈ frontierCells ∨ x ∈ newFrontier).
Proof.
  intros Hfr Hnew Hi. unfold updateFrontier.
  set (kept := erase_remove_if _ _).
  assert (NoDup (frontierCells ++ kept)) as Hnd.
  { apply NoDup_app. split_and!; [done| |by apply NoDup_erase_remove_if].
    intros x Hx. unfold kept. rewrite elem_of_erase_remove_if.
    intros [_ Hfalse]. apply cellAlreadyInFrontier_spec in Hx. congruence. }
  split; [by apply NoDup_delete|].
  intros x. rewrite (elem_of_delete_NoDup _ _ f) by (by try apply lookup_app_l_Some).
  rewrite elem_of_app. unfold kept. rewrite elem_of_erase_remove_if.
  destruct (cellAlreadyInFrontier frontierCells x) eqn:Hx.
  - apply cellAlreadyInFrontier_spec in Hx. split; [intros [[?|[? ?]] ?]|]; try tauto.
  - tauto.
Qed.

Lemma rem_index r (n : nat) :
  0 ≤ r → (0 < n)%nat → (Z.to_nat (Z.rem r (Z.of_nat n)) < n)%nat.
Proof.
  intros Hr Hn. pose proof (Z.rem_bound_pos r (Z.of_nat n)). lia.
Qed.

(** ** Geometry of the step-2 lattice *)

Lemma elem_of_offsets pos q :
  q ∈ offsets pos ↔
  (row q = row pos ∧ (col q = col pos - 2 ∨ col q = col pos + 2)) ∨
  (col q = col pos ∧ (row q = row pos - 2 ∨ row q = row pos + 2)).
Proof.
  unfold offsets. rewrite !elem_of_cons, elem_of_nil.
  destruct q as [r c], pos as [r0 c0]; simpl. split.
  - intros [H|[H|[H|[H|H]]]]; try done; injection H as -> ->; lia.
  - intros [[-> [-> | ->]] | [-> [-> | ->]]]; tauto.
Qed.

Lemma offsets_range g p q :
  InGrid g p → q ∈ offsets p →
  -2 ≤ row q < _height g + 2 ∧ -2 ≤ col q < _width g + 2.
Proof. rewrite elem_of_offsets. unfold InGrid. lia. Qed.

Lemma offsets_sym p q : q ∈ offsets p → p ∈ offsets q.
Proof. rewrite !elem_of_offsets. lia. Qed.

Lemma offsets_ne p q : q ∈ offsets p → q ≠ p.
Proof. rewrite elem_of_offsets. intros H ->. lia. Qed.

Lemma offsets_sameLattice p q : q ∈ offsets p → sameLattice q p.
Proof. rewrite elem_of_offsets. intros H. zmod. Qed.

Lemma sameLattice_trans p q r : sameLattice p q → sameLattice q r → sameLattice p r.
Proof. unfold sameLattice. intros [-> ->] [-> ->]. done. Qed.

Lemma NoDup_offsets pos : NoDup (offsets pos).
Proof.
  unfold offsets.
  repeat (apply NoDup_cons; split;
          [rewrite ?elem_of_cons, elem_of_nil; intros H;
           repeat (destruct H as [H|H]; [injection H; lia|]); done|]).
  apply NoDup_nil_2.
Qed.

Lemma elem_of_matching g pos cell q :
  q ∈ matching g pos cell ↔ q ∈ offsets pos ∧ InGrid g q ∧ cellOf g q = cell.
Proof. unfold matching. rewrite list_elem_of_filter. tauto. Qed.

Lemma NoDup_matching g pos cell : NoDup (matching g pos cell).
Proof. apply NoDup_filter, NoDup_offsets. Qed.

Lemma positionBetween_spec n f :
  n ∈ offsets f →
  adjacent n (positionBetweenFrontierAndCell n f) ∧
  adjacent (positionBetweenFrontierAndCell n f) f ∧
  ¬ sameLattice (positionBetweenFrontierAndCell n f) f ∧
  ∀ g, InGrid g n → InGrid g f → InGrid g (positionBetweenFrontierAndCell n f).
Proof.
  rewrite elem_of_offsets. intros H. unfold positionBetweenFrontierAndCell.
  rewrite !Z.gtb_ltb.
  repeat (match goal with |- context [?a <? ?b] => destruct (Z.ltb_spec a b) end);
    (split_and!; [zmod | zmod | zmod | intros g ? ?; zmod]).
Qed.

(** ** Connectivity *)

Lemma adjacent_sym p q : adjacent p q → adjacent q p.
Proof. unfold adjacent. lia. Qed.

Lemma isPath_grows g g' p : grows g g' → isPath g p → isPath g' p.
Proof.
  intros Hg [Hin Hp]. split; [by apply (grows_InGrid g g')|].
  destruct Hg as (_ & _ & Hg). by apply Hg.
Qed.

Lemma connected_isPath_l g p q : connected g p q → isPath g p.
Proof. induction 1; auto. Qed.

Lemma connected_isPath_r g p q : connected g p q → isPath g q.
Proof. induction 1; auto. Qed.

Lemma connected_trans g p q r : connected g p q → connected g q r → connected g p r.
Proof. intros Hpq Hqr. induction Hqr; eauto using connected. Qed.

Lemma connected_sym g p q : connected g p q → connected g q p.
Proof.
  induction 1 as [p Hp|p q r Hpq IH Hadj Hr]; [by constructor|].
  apply connected_trans with q; [|done].
  apply connected_step with r; [by constructor|by apply adjacent_sym|].
  by apply connected_isPath_r in Hpq.
Qed.

Lemma connected_grows g g' p q : grows g g' → connected g p q → connected g' p q.
Proof. intros Hg. induction 1; eauto using connected, isPath_grows. Qed.

(** ** Counting the walls of the lattice *)

Lemma elem_of_latticeCoords x n r :
  r ∈ latticeCoords x n ↔ 0 ≤ r < n ∧ r mod 2 = x mod 2.
Proof.
  unfold latticeCoords. rewrite list_elem_of_fmap. split.
  - intros (i & -> & Hi%elem_of_seqZ). zmod.
  - intros [Hr Hm]. exists (r `div` 2). rewrite elem_of_seqZ. zmod.
Qed.

Lemma NoDup_latticeCoords x n : NoDup (latticeCoords x n).
Proof.
  unfold latticeCoords. apply NoDup_fmap_2_strong; [|apply NoDup_seqZ].
  intros i j _ _. lia.
Qed.

Lemma length_latticeCoords x n :
  0 ≤ n → Z.of_nat (length (latticeCoords x n)) ≤ (n + 1) `div` 2.
Proof.
  intros Hn. unfold latticeCoords. rewrite length_fmap, length_seqZ. zmod.
Qed.

Lemma elem_of_latticePositions g start p :
  p ∈ latticePositions g start ↔ InGrid g p ∧ sameLattice p start.
Proof.
  unfold latticePositions. rewrite list_elem_of_bind. split.
  - intros (r & (c & -> & Hc)%list_elem_of_fmap & Hr).
    apply elem_of_latticeCoords in Hc, Hr. unfold InGrid, sameLattice. simpl. tauto.
  - intros [[Hr Hc] [Hrm Hcm]]. exists (row p). split.
    + apply list_elem_of_fmap. exists (col p). split; [by destruct p|].
      by apply elem_of_latticeCoords.
    + by apply elem_of_latticeCoords.
Qed.

Lemma NoDup_latticePositions g start : NoDup (latticePositions g start).
Proof.
  unfold latticePositions. apply NoDup_bind; [| |apply NoDup_latticeCoords].
  - intros r1 r2 p _ _ (c1 & -> & _)%list_elem_of_fmap (c2 & [= -> _] & _)%list_elem_of_fmap.
    done.
  - intros r _. apply NoDup_fmap_2_strong; [|apply NoDup_latticeCoords].
    by intros c1 c2 _ _ [= ->].
Qed.

Lemma length_bind_const {A B} (f : A → list B) (l : list A) n :
  (∀ x, length (f x) = n) → length (l ≫= f) = (length l * n)%nat.
Proof.
  intros Hf. induction l as [|x l IH]; [done|].
  rewrite bind_cons, length_app, Hf, IH. simpl. lia.
Qed.

Lemma length_latticePositions g start :
  0 ≤ _width g → 0 ≤ _height g →
  Z.of_nat (length (latticePositions g start)) ≤
  ((_width g + 1) `div` 2) * ((_height g + 1) `div` 2).
Proof.
  intros Hw Hh. unfold latticePositions.
  rewrite (length_bind_const _ _ (length (latticeCoords (col start) (_width g))))
    by (intros r; apply length_fmap).
  pose proof (length_latticeCoords (row start) _ Hh).
  pose proof (length_latticeCoords (col start) _ Hw).
  nia.
Qed.

Lemma filter_ext_in {A} (P Q : A → Prop)
    `{!∀ x, Decision (P x), !∀ x, Decision (Q x)} (l : list A) :
  (∀ y, y ∈ l → P y ↔ Q y) → filter P l = filter Q l.
Proof.
  induction l as [|a l IH]; intros Hiff; [done|].
  rewrite !filter_cons, IH by (intros y Hy; apply Hiff; by apply list_elem_of_further).
  pose proof (Hiff a (list_elem_of_here _ _)).
  destruct (decide (P a)), (decide (Q a)); tauto.
Qed.

Lemma length_filter_remove {A} (P Q : A → Prop)
    `{!∀ x, Decision (P x), !∀ x, Decision (Q x)} (l : list A) x :
  NoDup l → x ∈ l → P x → ¬ Q x → (∀ y, y ∈ l → y ≠ x → P y ↔ Q y) →
  length (filter P l) = S (length (filter Q l)).
Proof.
  intros Hnd Hx HP HQ. revert Hx.
  induction Hnd as [|a l Ha Hnd IH]; intros Hx Hiff.
  - by apply elem_of_nil in Hx.
  - apply elem_of_cons in Hx as [<-|Hx].
    + rewrite filter_cons_True, filter_cons_False by done. simpl.
      rewrite (filter_ext_in P Q l); [done|].
      intros y Hy. apply Hiff; [by apply list_elem_of_further|]. by intros ->.
    + assert (a ≠ x) as Hax by (by intros ->).
      pose proof (Hiff a (list_elem_of_here _ _) Hax).
      assert (length (filter P l) = S (length (filter Q l))) as IH'.
      { apply IH; [done|]. intros y Hy. apply Hiff. by apply list_elem_of_further. }
      rewrite !filter_cons.
      destruct (decide (P a)), (decide (Q a)); try tauto; simpl; by rewrite IH'.
Qed.

Lemma latticeWalls_store_lattice g start p :
  wf g → InGrid g p → sameLattice p start → cellOf g p = Wall →
  latticeWalls g start = S (latticeWalls (cellsStore g p Path) start).
Proof.
  intros Hwf Hin Hlat Hwall. unfold latticeWalls.
  change (latticePositions (cellsStore g p Path) start) with (latticePositions g start).
  apply (length_filter_remove _ _ _ p).
  - apply NoDup_latticePositions.
  - by apply elem_of_latticePositions.
  - done.
  - by rewrite cellOf_cellsStore_eq.
  - intros y [Hy _]%elem_of_latticePositions Hne.
    by rewrite cellOf_cellsStore_ne.
Qed.

Lemma latticeWalls_store_other g start p :
  InGrid g p → ¬ sameLattice p start →
  latticeWalls (cellsStore g p Path) start = latticeWalls g start.
Proof.
  intros Hin Hlat. unfold latticeWalls.
  change (latticePositions (cellsStore g p Path) start) with (latticePositions g start).
  f_equal. apply filter_ext_in.
  intros y [Hy Hs]%elem_of_latticePositions.
  rewrite cellOf_cellsStore_ne; [done..|]. by intros ->.
Qed.

(** ** The loop invariant *)

Lemma Inv_step start g frontierCells i f n :
  Inv start g frontierCells →
  frontierCells !! Z.to_nat i = Some f →
  n ∈ matching (cellsStore g f Path) f Path →
  let g2 := cellsStore (cellsStore g f Path)
              (positionBetweenFrontierAndCell n f) Path in
  Inv start g2 (updateFrontier frontierCells i (matching g2 f Wall)) ∧
  grows g g2 ∧
  latticeWalls g start = S (latticeWalls g2 start).
Proof.
  intros HI Hi Hn.
  set (g1 := cellsStore g f Path) in *.
  set (mid := positionBetweenFrontierAndCell n f). intros g2.
  destruct HI as [Hwf Hstart Hin Hlat Hwall Hnext Hnd Hconn].
  assert (f ∈ frontierCells) as Hf by (by eapply list_elem_of_lookup_2).
  pose proof (Hin f Hf) as Hfin. pose proof (Hlat f Hf) as Hflat.
  pose proof (Hwall f Hf) as Hfwall.
  apply elem_of_matching in Hn as (Hoff & Hnin & Hnpath).
  pose proof (offsets_ne _ _ Hoff) as Hnf.
  assert (isPath g n) as Hng.
  { split; [done|]. unfold g1 in Hnpath.
    rewrite cellOf_cellsStore_ne in Hnpath; auto. }
  destruct (positionBetween_spec n f Hoff) as (Hadj1 & Hadj2 & Hmidlat & Hmidin).
  fold mid in Hadj1, Hadj2, Hmidlat, Hmidin.
  assert (InGrid g mid) as Hmid by (by apply Hmidin).
  assert (mid ≠ f) as Hmf by (intros E; apply Hmidlat; by rewrite E).
  assert (¬ sameLattice mid start) as Hmidstart.
  { intros Hm. apply Hmidlat. unfold sameLattice in *. destruct Hm, Hflat. split; congruence. }
  assert (wf g1) as Hwf1 by (by apply wf_cellsStore).
  assert (wf g2) as Hwf2 by (by apply wf_cellsStore).
  assert (grows g g1) as Hg1 by (by apply grows_cellsStore).
  assert (grows g1 g2) as Hg12 by (by apply grows_cellsStore).
  assert (grows g g2) as Hg2 by (by eapply grows_trans).
  assert (cellOf g2 f = Path) as Hf2.
  { unfold g2. rewrite cellOf_cellsStore_ne by done. by apply cellOf_cellsStore_eq. }
  assert (cellOf g2 mid = Path) as Hmid2 by (by apply cellOf_cellsStore_eq).
  assert (∀ q, InGrid g q → q ≠ f → q ≠ mid → cellOf g2 q = cellOf g q) as Hother.
  { intros q Hq Hqf Hqm. unfold g2, g1. rewrite !cellOf_cellsStore_ne; auto. }
  destruct (updateFrontier_spec frontierCells i f (matching g2 f Wall) Hnd
              (NoDup_matching _ _ _) Hi) as [Hnd' Hmem].
  split_and!.
  - split.
    + done.
    + by apply (isPath_grows g).
    + intros x [Hxf [Hx|Hx]]%Hmem; [by apply Hin|].
      by apply elem_of_matching in Hx as (_ & Hx & _).
    + intros x [Hxf [Hx|Hx]]%Hmem; [by apply Hlat|].
      apply elem_of_matching in Hx as (Hx & _ & _).
      eapply sameLattice_trans; [by apply offsets_sameLattice|done].
    + intros x [Hxf [Hx|Hx]]%Hmem.
      * rewrite Hother; auto. intros ->. apply Hmidstart. by apply Hlat.
      * by apply elem_of_matching in Hx as (_ & _ & Hx).
    + intros x [Hxf [Hx|Hx]]%Hmem.
      * destruct (Hnext x Hx) as (y & Hy & Hyp). exists y. split; [done|].
        by apply (isPath_grows g).
      * apply elem_of_matching in Hx as (Hx & _ & _).
        exists f. split; [by apply offsets_sym|]. by split.
    + done.
    + assert (connected g2 start n) as Hcn.
      { apply (connected_grows g); [done|]. by apply Hconn. }
      assert (connected g2 start mid) as Hcm.
      { eapply connected_step; [exact Hcn|done|]. by split. }
      intros p [Hpin Hp].
      destruct (decide (p = f)) as [->|Hpf].
      { eapply connected_step; [exact Hcm|done|]. by split. }
      destruct (decide (p = mid)) as [->|Hpm]; [done|].
      apply (connected_grows g); [done|]. apply Hconn. split; [done|].
      by rewrite <- Hother.
  - done.
  - rewrite (latticeWalls_store_lattice g start f) by done.
    f_equal. symmetry. by apply latticeWalls_store_other.
Qed.

Lemma Forall_filter_self {A} (P : A → Prop) `{!∀ x, Decision (P x)} (l : list A) :
  Forall P (filter P l).
Proof. apply Forall_forall. by intros x [? _]%list_elem_of_filter. Qed.

Lemma pickFrontierCell_ok rnd frontierCells m :
  (∀ k, 0 ≤ rnd k) → wf (grid m) → frontierCells ≠ [] →
  (∀ f, f ∈ frontierCells → InGrid (grid m) f) →
  ∃ f,
    frontierCells !! Z.to_nat (Z.rem (rnd (randCalls m)) (Z.of_nat (length frontierCells)))
      = Some f ∧
    pickFrontierCell rnd frontierCells m =
      Ok (Z.rem (rnd (randCalls m)) (Z.of_nat (length frontierCells)), f)
         (withGrid (logged (drawn m 1) [f]) (cellsStore (grid m) f Path)).
Proof.
  intros Hrnd Hwf Hne Hin.
  destruct (lookup_lt_is_Some_2 frontierCells
              (Z.to_nat (Z.rem (rnd (randCalls m)) (Z.of_nat (length frontierCells)))))
    as [f Hf].
  { apply rem_index; [done|]. destruct frontierCells; [done|simpl; lia]. }
  exists f. split; [done|].
  unfold pickFrontierCell, bind, rand. rewrite Hf.
  rewrite cellAtPosition_assign_ok; [done|done|].
  apply Hin. by eapply list_elem_of_lookup_2.
Qed.

Lemma carvePassage_ok rnd neighbours f m :
  (∀ k, 0 ≤ rnd k) → wf (grid m) → neighbours ≠ [] → InGrid (grid m) f →
  (∀ n, n ∈ neighbours → n ∈ offsets f ∧ InGrid (grid m) n) →
  ∃ n, n ∈ neighbours ∧
    carvePassage rnd neighbours f m =
      Ok tt (withGrid (logged (drawn m 1) [positionBetweenFrontierAndCell n f])
               (cellsStore (grid m) (positionBetweenFrontierAndCell n f) Path)).
Proof.
  intros Hrnd Hwf Hne Hf Hns.
  destruct (lookup_lt_is_Some_2 neighbours
              (Z.to_nat (Z.rem (rnd (randCalls m)) (Z.of_nat (length neighbours)))))
    as [n Hn].
  { apply rem_index; [done|]. destruct neighbours; [done|simpl; lia]. }
  assert (n ∈ neighbours) as Hnin by (by eapply list_elem_of_lookup_2).
  exists n. split; [done|].
  unfold carvePassage. rewrite bool_decide_eq_false_2 by done.
  unfold bind, rand. rewrite Hn.
  destruct (Hns n Hnin) as [Hoff Hngrid].
  rewrite cellAtPosition_assign_ok; [done|done|].
  by apply positionBetween_spec.
Qed.

Lemma generateMaze_body_ok rnd width height start m frontierCells n :
  (∀ k, 0 ≤ rnd k) →
  LoopInv width height start m frontierCells n → frontierCells ≠ [] →
  ∃ i f m1 neighbours m2 frontierCells' m',
    frontierCells !! Z.to_nat i = Some f ∧
    pickFrontierCell rnd frontierCells m = Ok (i, f) m1 ∧
    grid m1 = cellsStore (grid m) f Path ∧
    frontierCellsForPositionMatchingCell f Path m1 = Ok neighbours m2 ∧
    neighbours = matching (grid m1) f Path ∧
    neighbours ≠ [] ∧
    generateMaze_body rnd frontierCells m = Ok frontierCells' m' ∧
    LoopInv width height start m' frontierCells' (S n) ∧
    grows (grid m) (grid m') ∧
    grows (grid m1) (grid m') ∧
    ∃ y m3,
      y ∈ neighbours ∧
      carvePassage rnd neighbours f m2 = Ok tt m3 ∧
      grid m3 = cellsStore (grid m1) (positionBetweenFrontierAndCell y f) Path.
Proof.
  intros Hrnd (HI & Hlog & Hw & Hh & Hcount) Hne.
  pose proof (inv_wf _ _ _ HI) as Hwf.
  destruct (pickFrontierCell_ok rnd frontierCells m Hrnd Hwf Hne (inv_in_grid _ _ _ HI))
    as (f & Hi & Hpick).
  set (i := Z.rem _ _) in *. set (m1 := withGrid _ _) in *.
  assert (f ∈ frontierCells) as Hf by (by eapply list_elem_of_lookup_2).
  pose proof (inv_in_grid _ _ _ HI f Hf) as Hfin.
  assert (wf (grid m1)) as Hwf1 by (by apply wf_cellsStore).
  pose proof (frontierCellsForPositionMatchingCell_ok f Path m1 Hwf1) as Hnbs.
  set (m2 := logged m1 _) in *.
  assert (matching (grid m1) f Path ≠ []) as Hnbs_ne.
  { destruct (inv_next_to_path _ _ _ HI f Hf) as (y & Hy & Hyp).
    assert (y ∈ matching (grid m1) f Path) as Hin; [|by intros E; rewrite E in Hin; inv Hin].
    apply elem_of_matching. split; [done|].
    by apply (isPath_grows (grid m)); [apply grows_cellsStore|]. }
  destruct (carvePassage_ok rnd (matching (grid m1) f Path) f m2 Hrnd Hwf1 Hnbs_ne Hfin)
    as (y & Hy & Hcarve).
  { intros y Hy. apply elem_of_matching in Hy. tauto. }
  set (m3 := withGrid _ _) in Hcarve.
  destruct (Inv_step start (grid m) frontierCells i f y HI Hi Hy) as (HI' & Hgrows & Hwalls).
  pose proof (inv_wf _ _ _ HI') as Hwf3.
  pose proof (frontierCellsForPositionMatchingCell_ok f Wall m3 Hwf3) as Hnew.
  exists i, f, m1, (matching (grid m1) f Path), m2,
    (updateFrontier frontierCells i (matching (grid m3) f Wall)),
    (logged m3 (filter (InGrid (grid m3)) (offsets f))).
  split_and!; try done.
  - unfold generateMaze_body, bind. rewrite Hpick. simpl.
    rewrite Hnbs, Hcarve, Hnew. done.
  - split_and!; try done.
    + simpl. rewrite !Forall_app. split_and!.
      * eapply Forall_impl; [exact Hlog|]. intros p Hp. by apply (grows_InGrid (grid m)).
      * constructor; [|constructor]. by apply (grows_InGrid (grid m)).
      * eapply Forall_impl; [apply Forall_filter_self|]. by intros x Hx.
      * constructor; [|constructor].
        apply elem_of_matching in Hy as (Hoff & Hyin & _).
        destruct (positionBetween_spec y f Hoff) as (_ & _ & _ & Hmid).
        apply InGrid_cellsStore. by apply Hmid.
      * apply Forall_filter_self.
    + rewrite <- Hcount, Hwalls. simpl grid. lia.
  - simpl grid. apply grows_cellsStore; [done|].
    apply elem_of_matching in Hy as (Hoff & Hyin & _).
    destruct (positionBetween_spec y f Hoff) as (_ & _ & _ & Hmid). by apply Hmid.
  - by exists y, m3.
Qed.

Lemma filter_all {A} (P : A → Prop) `{!∀ x, Decision (P x)} (l : list A) :
  (∀ y, y ∈ l → P y) → filter P l = l.
Proof.
  induction l as [|a l IH]; intros HP; [done|].
  rewrite filter_cons_True by apply HP, list_elem_of_here.
  f_equal. apply IH. intros y Hy. by apply HP, list_elem_of_further.
Qed.

Lemma generateMaze_start_ok rnd width height :
  (∀ k, 0 ≤ rnd k) → 0 < width → 0 < height →
  ∃ start frontierCells m,
    generateMaze_start rnd (initial width height) = Ok (start, frontierCells) m ∧
    start = mkPosition (Z.rem (rnd 0%nat) height) (Z.rem (rnd 1%nat) width) ∧
    grid m = cellsStore (Grid_new width height) start Path ∧
    frontierCells = matching (grid m) start Wall ∧
    accessed m = start :: filter (InGrid (grid m)) (offsets start) ∧
    LoopInv width height start m frontierCells 0.
Proof.
  intros Hrnd Hw Hh.
  set (start := mkPosition (Z.rem (rnd 0%nat) height) (Z.rem (rnd 1%nat) width)).
  set (g0 := Grid_new width height).
  assert (InGrid g0 start) as Hstart.
  { pose proof (Z.rem_bound_pos (rnd 0%nat) height (Hrnd _) Hh).
    pose proof (Z.rem_bound_pos (rnd 1%nat) width (Hrnd _) Hw).
    unfold InGrid. simpl. lia. }
  pose proof (wf_Grid_new width height) as Hwf0. fold g0 in Hwf0.
  set (g1 := cellsStore g0 start Path).
  assert (wf g1) as Hwf1 by (by apply wf_cellsStore).
  assert (cellOf g1 start = Path) as Hs1 by (by apply cellOf_cellsStore_eq).
  assert (∀ p, InGrid g0 p → p ≠ start → cellOf g1 p = Wall) as Hrest.
  { intros p Hp Hne. unfold g1. rewrite cellOf_cellsStore_ne by done.
    apply cellOf_Grid_new. }
  exists start, (matching g1 start Wall),
    (logged (withGrid (logged (drawn (initial width height) 2) [start]) g1)
       (filter (InGrid g1) (offsets start))).
  split_and!; try done.
  - unfold generateMaze_start, bind, getGrid, rand. simpl.
    fold start. rewrite cellAtPosition_assign_ok by done.
    rewrite frontierCellsForPositionMatchingCell_ok by done. done.
  - split_and!; try done.
    + split; try done.
      * intros f Hf. apply elem_of_matching in Hf. tauto.
      * intros f (Hf & _ & _)%elem_of_matching. by apply offsets_sameLattice.
      * intros f Hf. apply elem_of_matching in Hf. tauto.
      * intros f (Hf & _ & _)%elem_of_matching. exists start.
        split; [by apply offsets_sym|done].
      * apply NoDup_matching.
      * intros p [Hp Hpath]. destruct (decide (p = start)) as [->|Hne].
        -- by constructor.
        -- rewrite Hrest in Hpath; done.
    + simpl. constructor; [done|]. apply Forall_filter_self.
    + simpl grid. fold g0.
      assert (latticeWalls g0 start = S (latticeWalls g1 start)) as Hwalls.
      { apply latticeWalls_store_lattice; try done. apply cellOf_Grid_new. }
      assert (latticeWalls g0 start = length (latticePositions g0 start)) as Hall.
      { unfold latticeWalls. f_equal. apply filter_all.
        intros y _. apply cellOf_Grid_new. }
      lia.
Qed.

Lemma LoopState_LoopInv rnd width height start m frontierCells n :
  (∀ k, 0 ≤ rnd k) → 0 < width → 0 < height →
  LoopState rnd width height start m frontierCells n →
  LoopInv width height start m frontierCells n.
Proof.
  intros Hrnd Hw Hh. induction 1 as [m fr Hstart|m fr n m' fr' _ IH Hne Hbody].
  - destruct (generateMaze_start_ok rnd width height Hrnd Hw Hh)
      as (s & fr0 & m0 & Heq & _ & _ & _ & _ & HI).
    rewrite Heq in Hstart. by injection Hstart as -> -> ->.
  - destruct (generateMaze_body_ok rnd width height start m fr n Hrnd IH Hne)
      as (i & f & m1 & ns & m2 & fr2 & m3 & _ & _ & _ & _ & _ & _ & Heq & HI & _).
    rewrite Heq in Hbody. by injection Hbody as -> ->.
Qed.

Lemma LoopState_functional rnd width height start m1 fr1 m2 fr2 n :
  LoopState rnd width height start m1 fr1 n →
  LoopState rnd width height start m2 fr2 n →
  m1 = m2 ∧ fr1 = fr2.
Proof.
  intros H1. revert m2 fr2.
  induction H1 as [m fr Hstart|m fr n m' fr' _ IH Hne Hbody]; intros m2 fr2 H2; inv H2.
  - split; congruence.
  - match goal with H : LoopState _ _ _ _ _ _ _ |- _ => apply IH in H as [<- <-] end.
    split; congruence.
Qed.

Lemma generateMaze_loop_ok rnd width height start :
  (∀ k, 0 ≤ rnd k) → 0 < width → 0 < height →
  ∀ fuel m frontierCells n,
    LoopState rnd width height start m frontierCells n →
    (latticeWalls (grid m) start ≤ fuel)%nat →
    ∃ n' m',
      generateMaze_loop rnd fuel frontierCells n m = Ok ([], n') m' ∧
      LoopState rnd width height start m' [] n'.
Proof.
  intros Hrnd Hw Hh fuel.
  induction fuel as [|fuel IH]; intros m fr n HS Hfuel;
    (destruct fr as [|f fr]; [by exists n, m|]).
  all: pose proof (LoopState_LoopInv _ _ _ _ _ _ _ Hrnd Hw Hh HS) as HI.
  all: destruct (generateMaze_body_ok rnd width height start m (f :: fr) n Hrnd HI)
      as (i & f' & m1 & ns & m2 & fr' & m' & _ & _ & _ & _ & _ & _ & Hbody & HI' & _);
      [done|].
  all: assert (latticeWalls (grid m) start = S (latticeWalls (grid m') start)) as Hwalls
      by (destruct HI as (_ & _ & _ & _ & Hc), HI' as (_ & _ & _ & _ & Hc'); lia).
  - lia.
  - simpl. unfold bind. rewrite Hbody.
    apply IH; [|lia]. by eapply LoopState_iterate.
Qed.

Lemma generateMaze_ok rnd width height fuel :
  (∀ k, 0 ≤ rnd k) → 0 < width → 0 < height →
  width * height ≤ Z.of_nat fuel →
  ∃ start n m,
    generateMaze rnd fuel (initial width height) = Ok (mkRun start [] n) m ∧
    start = mkPosition (Z.rem (rnd 0%nat) height) (Z.rem (rnd 1%nat) width) ∧
    LoopState rnd width height start m [] n.
Proof.
  intros Hrnd Hw Hh Hfuel.
  destruct (generateMaze_start_ok rnd width height Hrnd Hw Hh)
    as (start & fr & m0 & Hstart & Hs & _ & _ & _ & HI).
  assert (LoopState rnd width height start m0 fr 0) as HS by (by constructor).
  destruct (generateMaze_loop_ok rnd width height start Hrnd Hw Hh fuel m0 fr 0%nat HS)
    as (n & m & Hloop & HS').
  { destruct HI as (_ & _ & _ & _ & Hc).
    pose proof (length_latticePositions (Grid_new width height) start) as Hlen.
    simpl _width in Hlen. simpl _height in Hlen.
    assert (0 ≤ (width + 1) `div` 2 ≤ width) by (Z.div_mod_to_equations; lia).
    assert (0 ≤ (height + 1) `div` 2 ≤ height) by (Z.div_mod_to_equations; lia).
    assert ((width + 1) `div` 2 * ((height + 1) `div` 2) ≤ width * height) by nia.
    lia. }
  exists start, n, m. split_and!; [|done|done].
  unfold generateMaze, bind. rewrite Hstart. simpl. by rewrite Hloop.
Qed.

(** * The properties of the specification *)

(** ** Generation *)

(** Claim C1 (connectivity).  On a grid of positive width and height, with
    enough fuel for the loop, [generateMaze] completes and in the final
    grid every Path cell is connected to the starting cell, and to every
    other Path cell, by a sequence of 4-directionally adjacent Path cells. *)
Theorem C1_connectivity rnd width height fuel :
  (∀ k, 0 ≤ rnd k) → 0 < width → 0 < height →
  width * height ≤ Z.of_nat fuel →
  ∃ run m,
    generateMaze rnd fuel (initial width height) = Ok run m ∧
    (∀ p, isPath (grid m) p → connected (grid m) (startPos run) p) ∧
    (∀ p q, isPath (grid m) p → isPath (grid m) q → connected (grid m) p q).
Proof.
  intros Hrnd Hw Hh Hfuel.
  destruct (generateMaze_ok rnd width height fuel Hrnd Hw Hh Hfuel)
    as (start & n & m & Hrun & _ & HS).
  apply LoopState_LoopInv in HS as (HI & _); [|done..].
  exists (mkRun start [] n), m. split_and!; [done|apply HI|].
  intros p q Hp Hq. apply connected_trans with start.
  - apply connected_sym. by apply (inv_connected _ _ _ HI).
  - by apply (inv_connected _ _ _ HI).
Qed.

Lemma C1_connectivity_witness :
  ∃ run m,
    generateMaze (λ _, 0) 9 (initial 3 3) = Ok run m ∧
    (∀ p, isPath (grid m) p → connected (grid m) (startPos run) p) ∧
    (∀ p q, isPath (grid m) p → isPath (grid m) q → connected (grid m) p q).
Proof.
  apply (C1_connectivity (λ _, 0) 3 3 9%nat); [intros k; simpl; lia | lia | lia | lia].
Defined.

(** The claim C2 as it is written fails: on a 3 by 3 grid whose draws are
    all 0 the loop runs 3 times, which is more than (3 * 3) / 4. *)
Lemma C2_iterations_counterexample :
  ∃ run m,
    generateMaze (λ _, 0) 9 (initial 3 3) = Ok run m ∧
    finalFrontier run = [] ∧
    iterations run = 3%nat ∧
    ¬ (Z.of_nat (iterations run) ≤ (3 * 3) `div` 4) ∧
    ¬ (4 * Z.of_nat (iterations run) ≤ 3 * 3).
Proof.
  eexists _, _. split; [vm_compute; reflexivity|]. simpl.
  split_and!; [done | done | |]; intros H; vm_compute in H; by apply H.
Qed.

(** Claim C2, amended (termination).  On a grid of positive width and
    height, for every sequence of draws, [generateMaze] completes with an
    empty frontier list, and the number of iterations of its loop is at most
    ceil(width / 2) * ceil(height / 2) - 1: one less than the number of
    points of a step-2 lattice of the grid. *)
Theorem C2_termination rnd width height fuel :
  (∀ k, 0 ≤ rnd k) → 0 < width → 0 < height →
  width * height ≤ Z.of_nat fuel →
  ∃ run m,
    generateMaze rnd fuel (initial width height) = Ok run m ∧
    finalFrontier run = [] ∧
    Z.of_nat (iterations run) ≤
      ((width + 1) `div` 2) * ((height + 1) `div` 2) - 1.
Proof.
  intros Hrnd Hw Hh Hfuel.
  destruct (generateMaze_ok rnd width height fuel Hrnd Hw Hh Hfuel)
    as (start & n & m & Hrun & _ & HS).
  apply LoopState_LoopInv in HS as (_ & _ & _ & _ & Hcount); [|done..].
  exists (mkRun start [] n), m. split_and!; [done|done|]. simpl.
  pose proof (length_latticePositions (Grid_new width height) start) as Hlen.
  simpl _width in Hlen. simpl _height in Hlen. lia.
Qed.

Lemma C2_termination_witness :
  ∃ run m,
    generateMaze (λ _, 0) 9 (initial 3 3) = Ok run m ∧
    finalFrontier run = [] ∧
    Z.of_nat (iterations run) ≤ ((3 + 1) `div` 2) * ((3 + 1) `div` 2) - 1.
Proof.
  apply (C2_termination (λ _, 0) 3 3 9%nat); [intros k; simpl; lia | lia | lia | lia].
Defined.

(** Claim C3 (bounds safety).  On a grid of positive width and height,
    [generateMaze] completes: neither the assertion of [cellAtPosition] nor
    an index out of range stops it.  Every position that was passed to
    [cellAtPosition] during the run, the starting position among them,
    satisfies 0 <= row < height and 0 <= col < width. *)
Theorem C3_bounds_safety rnd width height fuel :
  (∀ k, 0 ≤ rnd k) → 0 < width → 0 < height →
  width * height ≤ Z.of_nat fuel →
  ∃ run m,
    generateMaze rnd fuel (initial width height) = Ok run m ∧
    Forall (λ pos, 0 ≤ row pos < height ∧ 0 ≤ col pos < width) (accessed m) ∧
    (0 ≤ row (startPos run) < height ∧ 0 ≤ col (startPos run) < width).
Proof.
  intros Hrnd Hw Hh Hfuel.
  destruct (generateMaze_ok rnd width height fuel Hrnd Hw Hh Hfuel)
    as (start & n & m & Hrun & _ & HS).
  apply LoopState_LoopInv in HS as (HI & Hlog & Hwm & Hhm & _); [|done..].
  exists (mkRun start [] n), m. split; [done|split].
  - eapply Forall_impl; [exact Hlog|]. intros p. unfold InGrid. by rewrite Hwm, Hhm.
  - destruct (inv_start _ _ _ HI) as [Hs _]. unfold InGrid in Hs.
    by rewrite Hwm, Hhm in Hs.
Qed.

Lemma C3_bounds_safety_witness :
  ∃ run m,
    generateMaze (λ _, 0) 9 (initial 3 3) = Ok run m ∧
    Forall (λ pos, 0 ≤ row pos < 3 ∧ 0 ≤ col pos < 3) (accessed m) ∧
    (0 ≤ row (startPos run) < 3 ∧ 0 ≤ col (startPos run) < 3).
Proof.
  apply (C3_bounds_safety (λ _, 0) 3 3 9%nat); [intros k; simpl; lia | lia | lia | lia].
Defined.

(** Claim C4 (no duplicate frontier entries).  Whenever the loop evaluates
    its condition, so at the start of every iteration, no position occurs
    twice in the frontier list. *)
Theorem C4_frontier_NoDup rnd width height start m frontierCells n :
  (∀ k, 0 ≤ rnd k) → 0 < width → 0 < height →
  LoopState rnd width height start m frontierCells n →
  NoDup frontierCells.
Proof.
  intros Hrnd Hw Hh HS.
  apply LoopState_LoopInv in HS as (HI & _); [|done..]. apply HI.
Qed.

Lemma C4_frontier_NoDup_witness :
  ∃ m frontierCells,
    LoopState (λ _, 0) 3 3 (mkPosition 0 0) m frontierCells 0 ∧
    NoDup frontierCells.
Proof.
  eexists _, _.
  assert (LoopState (λ _, 0) 3 3 (mkPosition 0 0) _ _ 0) as HS
    by (apply LoopState_enter; vm_compute; reflexivity).
  split; [exact HS|].
  apply (C4_frontier_NoDup (λ _, 0) 3 3 _ _ _ _
           ltac:(intros k; simpl; lia) ltac:(lia) ltac:(lia) HS).
Defined.

Lemma LoopState_pick_grows rnd width height start m frontierCells n i f m1 :
  (∀ k, 0 ≤ rnd k) → 0 < width → 0 < height →
  LoopState rnd width height start m frontierCells n →
  pickFrontierCell rnd frontierCells m = Ok (i, f) m1 →
  grows (grid m) (grid m1).
Proof.
  intros Hrnd Hw Hh HS Hpick.
  pose proof (LoopState_LoopInv _ _ _ _ _ _ _ Hrnd Hw Hh HS) as HL.
  destruct frontierCells as [|x fr]; [done|].
  destruct (generateMaze_body_ok rnd width height start m (x :: fr) n Hrnd HL)
    as (i' & f' & m1' & ns & m2 & fr2 & m3 & Hi & Hpick' & Hg1 & _); [done|].
  rewrite Hpick' in Hpick. injection Hpick as <- <- <-.
  destruct HL as (HI & _).
  rewrite Hg1. apply grows_cellsStore; [apply HI|].
  apply (inv_in_grid _ _ _ HI). by eapply list_elem_of_lookup_2.
Qed.

Lemma LoopState_iterate_grows rnd width height start m frontierCells n m' frontierCells' :
  (∀ k, 0 ≤ rnd k) → 0 < width → 0 < height →
  LoopState rnd width height start m frontierCells n →
  frontierCells ≠ [] →
  generateMaze_body rnd frontierCells m = Ok frontierCells' m' →
  grows (grid m) (grid m') ∧
  ∀ i f m1, pickFrontierCell rnd frontierCells m = Ok (i, f) m1 →
            grows (grid m1) (grid m').
Proof.
  intros Hrnd Hw Hh HS Hne Hbody.
  pose proof (LoopState_LoopInv _ _ _ _ _ _ _ Hrnd Hw Hh HS) as HI.
  destruct (generateMaze_body_ok rnd width height start m frontierCells n Hrnd HI Hne)
    as (i & f & m1 & ns & m2 & fr' & m'' & Hi & Hpick & Hg1 & _ & _ & _ & Heq & _ & Hg & Hg' & _).
  rewrite Heq in Hbody. injection Hbody as <- <-.
  split; [done|]. intros i' f' m1' Hpick'.
  rewrite Hpick in Hpick'. by injection Hpick' as <- <- <-.
Qed.

(** Claim C5 (monotonicity).  Between any two evaluations of the loop
    condition, and between either of them and the grid in which the chosen
    frontier cell has just been marked, every cell that is a Path stays a
    Path: the grid only grows. *)
Theorem C5_monotonicity rnd width height start m frontierCells n m' frontierCells' n' :
  (∀ k, 0 ≤ rnd k) → 0 < width → 0 < height →
  LoopState rnd width height start m frontierCells n →
  LoopState rnd width height start m' frontierCells' n' →
  (n ≤ n')%nat →
  grows (grid m) (grid m') ∧
  ∀ i f m1, pickFrontierCell rnd frontierCells m = Ok (i, f) m1 →
            grows (grid m) (grid m1) ∧ ((n < n')%nat → grows (grid m1) (grid m')).
Proof.
  intros Hrnd Hw Hh HS HS' Hle.
  assert (grows (grid m) (grid m') ∧
          ∀ i f m1, pickFrontierCell rnd frontierCells m = Ok (i, f) m1 →
                    (n < n')%nat → grows (grid m1) (grid m')) as [Hg Hlater].
  { revert m frontierCells n HS Hle.
    induction HS' as [m' fr' Hstart|mk frk k m' fr' HSk IH Hne Hbody];
      intros m fr n HS Hle.
    - split; [|lia]. assert (n = 0%nat) as -> by lia.
      assert (LoopState rnd width height start m' fr' 0) as HS' by (by constructor).
      destruct (LoopState_functional _ _ _ _ _ _ _ _ _ HS HS') as [-> ->].
      apply grows_refl.
    - destruct (LoopState_iterate_grows _ _ _ _ _ _ _ _ _ Hrnd Hw Hh HSk Hne Hbody)
        as [Hstep Hmid].
      destruct (decide (n = S k)) as [->|Hn].
      + split; [|lia].
        assert (LoopState rnd width height start m' fr' (S k)) as HS'
          by (by eapply LoopState_iterate).
        destruct (LoopState_functional _ _ _ _ _ _ _ _ _ HS HS') as [-> ->].
        apply grows_refl.
      + destruct (IH m fr n HS) as [Hg Hlater]; [lia|].
        split; [by eapply grows_trans|].
        intros i f m1 Hpick _.
        destruct (decide (n = k)) as [->|Hnk].
        * destruct (LoopState_functional _ _ _ _ _ _ _ _ _ HS HSk) as [-> ->].
          by apply (Hmid i f m1).
        * eapply grows_trans; [by apply (Hlater i f m1 Hpick); lia|done]. }
  split; [done|]. intros i f m1 Hpick. split; [|by apply (Hlater i f m1)].
  exact (LoopState_pick_grows _ _ _ _ _ _ _ _ _ _ Hrnd Hw Hh HS Hpick).
Qed.

Lemma C5_monotonicity_witness :
  ∃ m frontierCells m' frontierCells',
    LoopState (λ _, 0) 3 3 (mkPosition 0 0) m frontierCells 0 ∧
    LoopState (λ _, 0) 3 3 (mkPosition 0 0) m' frontierCells' 1 ∧
    grows (grid m) (grid m') ∧
    ∀ i f m1, pickFrontierCell (λ _, 0) frontierCells m = Ok (i, f) m1 →
              grows (grid m) (grid m1) ∧ ((0 < 1)%nat → grows (grid m1) (grid m')).
Proof.
  eexists _, _, _, _.
  assert (LoopState (λ _, 0) 3 3 (mkPosition 0 0) _ _ 0) as HS
    by (apply LoopState_enter; vm_compute; reflexivity).
  assert (LoopState (λ _, 0) 3 3 (mkPosition 0 0) _ _ 1) as HS'
    by (eapply LoopState_iterate; [exact HS | done | vm_compute; reflexivity]).
  split; [exact HS|]. split; [exact HS'|].
  apply (C5_monotonicity (λ _, 0) 3 3 _ _ _ _ _ _ _
           ltac:(intros k; simpl; lia) ltac:(lia) ltac:(lia) HS HS' ltac:(lia)).
Defined.

(** Claim C6 (a chosen frontier cell has a Path neighbour).  At every
    iteration of the loop, once the chosen frontier cell is marked, its
    neighbour set (the in-grid positions at row +-2 / col +-2 that are
    Path) is not empty, so [carvePassage] takes the branch that carves the
    cell between the chosen cell and one of these neighbours. *)
Theorem C6_neighbours_nonempty rnd width height start m frontierCells n :
  (∀ k, 0 ≤ rnd k) → 0 < width → 0 < height →
  LoopState rnd width height start m frontierCells n →
  frontierCells ≠ [] →
  ∃ i f m1 neighbours m2 y m3,
    pickFrontierCell rnd frontierCells m = Ok (i, f) m1 ∧
    frontierCellsForPositionMatchingCell f Path m1 = Ok neighbours m2 ∧
    neighbours = matching (grid m1) f Path ∧
    neighbours ≠ [] ∧
    y ∈ neighbours ∧
    carvePassage rnd neighbours f m2 = Ok tt m3 ∧
    grid m3 = cellsStore (grid m1) (positionBetweenFrontierAndCell y f) Path.
Proof.
  intros Hrnd Hw Hh HS Hne.
  pose proof (LoopState_LoopInv _ _ _ _ _ _ _ Hrnd Hw Hh HS) as HI.
  destruct (generateMaze_body_ok rnd width height start m frontierCells n Hrnd HI Hne)
    as (i & f & m1 & ns & m2 & fr' & m' & _ & Hpick & _ & Hns & Hmatch & Hnonempty
        & _ & _ & _ & _ & y & m3 & Hy & Hcarve & Hg3).
  by exists i, f, m1, ns, m2, y, m3.
Qed.

Lemma C6_neighbours_nonempty_witness :
  ∃ m frontierCells,
    LoopState (λ _, 0) 3 3 (mkPosition 0 0) m frontierCells 0 ∧
    frontierCells ≠ [] ∧
    ∃ i f m1 neighbours m2 y m3,
      pickFrontierCell (λ _, 0) frontierCells m = Ok (i, f) m1 ∧
      frontierCellsForPositionMatchingCell f Path m1 = Ok neighbours m2 ∧
      neighbours = matching (grid m1) f Path ∧
      neighbours ≠ [] ∧
      y ∈ neighbours ∧
      carvePassage (λ _, 0) neighbours f m2 = Ok tt m3 ∧
      grid m3 = cellsStore (grid m1) (positionBetweenFrontierAndCell y f) Path.
Proof.
  eexists _, _.
  assert (LoopState (λ _, 0) 3 3 (mkPosition 0 0) _ _ 0) as HS
    by (apply LoopState_enter; vm_compute; reflexivity).
  split; [exact HS|]. split; [done|].
  apply (C6_neighbours_nonempty (λ _, 0) 3 3 _ _ _ _
           ltac:(intros k; simpl; lia) ltac:(lia) ltac:(lia) HS ltac:(done)).
Defined.

(** Claim C7 (minimum grid).  On a grid of width and height 1 or 2, where
    no cell has a position two steps away inside the grid, [generateMaze]
    completes without entering its loop, whatever the fuel: the frontier
    list is empty, no iteration is made, the starting cell is a Path and
    every other cell of the grid is a Wall. *)
Theorem C7_minimum_grid rnd width height fuel :
  (∀ k, 0 ≤ rnd k) → 0 < width ≤ 2 → 0 < height ≤ 2 →
  ∃ start m,
    generateMaze rnd fuel (initial width height) = Ok (mkRun start [] 0) m ∧
    InGrid (grid m) start ∧
    _width (grid m) = width ∧ _height (grid m) = height ∧
    ∀ p, InGrid (grid m) p →
         cellOf (grid m) p = if decide (p = start) then Path else Wall.
Proof.
  intros Hrnd Hw Hh.
  destruct (generateMaze_start_ok rnd width height Hrnd) as
    (start & fr & m & Hstart & _ & Hg & Hfr & _ & HI & _ & Hwm & Hhm & _); [lia..|].
  assert (fr = []) as ->.
  { rewrite Hfr. apply elem_of_nil_inv. intros q (Hq & Hin & _)%elem_of_matching.
    apply elem_of_offsets in Hq. destruct (inv_start _ _ _ HI) as [Hs _].
    unfold InGrid in *. lia. }
  exists start, m. split_and!; [|apply HI|done|done|].
  - unfold generateMaze, bind. rewrite Hstart. simpl. by destruct fuel.
  - intros p Hp. rewrite Hg in *. case_decide as Hps.
    + subst p. apply cellOf_cellsStore_eq; [apply wf_Grid_new|done].
    + rewrite cellOf_cellsStore_ne; [apply cellOf_Grid_new| |done|done].
      by destruct (inv_start _ _ _ HI) as [Hs _].
Qed.

Lemma C7_minimum_grid_witness :
  ∃ start m,
    generateMaze (λ _, 0) 0 (initial 2 2) = Ok (mkRun start [] 0) m ∧
    InGrid (grid m) start ∧
    _width (grid m) = 2 ∧ _height (grid m) = 2 ∧
    ∀ p, InGrid (grid m) p →
         cellOf (grid m) p = if decide (p = start) then Path else Wall.
Proof.
  apply (C7_minimum_grid (λ _, 0) 2 2 0%nat); [intros k; simpl; lia | lia | lia].
Defined.

(** Claim C10 (frontier cells are walls).  Whenever the loop evaluates its
    condition, every position of the frontier list is a Wall cell of the
    grid; so marking the chosen frontier cell changes that one cell, from
    Wall to Path, and no other. *)
Theorem C10_frontier_cells_are_walls rnd width height start m frontierCells n :
  (∀ k, 0 ≤ rnd k) → 0 < width → 0 < height →
  LoopState rnd width height start m frontierCells n →
  (∀ f, f ∈ frontierCells → InGrid (grid m) f ∧ cellOf (grid m) f = Wall) ∧
  (frontierCells ≠ [] →
   ∃ i f m1,
     pickFrontierCell rnd frontierCells m = Ok (i, f) m1 ∧
     f ∈ frontierCells ∧
     cellOf (grid m) f = Wall ∧
     cellOf (grid m1) f = Path ∧
     ∀ q, InGrid (grid m) q → q ≠ f → cellOf (grid m1) q = cellOf (grid m) q).
Proof.
  intros Hrnd Hw Hh HS.
  pose proof (LoopState_LoopInv _ _ _ _ _ _ _ Hrnd Hw Hh HS) as HL.
  pose proof HL as (HI & _).
  split.
  - intros f Hf. split; [by apply (inv_in_grid _ _ _ HI)|by apply (inv_wall _ _ _ HI)].
  - intros Hne.
    destruct (generateMaze_body_ok rnd width height start m frontierCells n Hrnd HL Hne)
      as (i & f & m1 & ns & m2 & fr' & m' & Hi & Hpick & Hg1 & _).
    assert (f ∈ frontierCells) as Hf by (by eapply list_elem_of_lookup_2).
    pose proof (inv_in_grid _ _ _ HI f Hf) as Hfin.
    exists i, f, m1. split_and!; [done|done|by apply (inv_wall _ _ _ HI)| |].
    + rewrite Hg1. apply cellOf_cellsStore_eq; [apply HI|done].
    + intros q Hq Hqf. rewrite Hg1. by apply cellOf_cellsStore_ne.
Qed.

Lemma C10_frontier_cells_are_walls_witness :
  ∃ m frontierCells,
    LoopState (λ _, 0) 3 3 (mkPosition 0 0) m frontierCells 0 ∧
    (∀ f, f ∈ frontierCells → InGrid (grid m) f ∧ cellOf (grid m) f = Wall) ∧
    (frontierCells ≠ [] →
     ∃ i f m1,
       pickFrontierCell (λ _, 0) frontierCells m = Ok (i, f) m1 ∧
       f ∈ frontierCells ∧
       cellOf (grid m) f = Wall ∧
       cellOf (grid m1) f = Path ∧
       ∀ q, InGrid (grid m) q → q ≠ f → cellOf (grid m1) q = cellOf (grid m) q).
Proof.
  eexists _, _.
  assert (LoopState (λ _, 0) 3 3 (mkPosition 0 0) _ _ 0) as HS
    by (apply LoopState_enter; vm_compute; reflexivity).
  split; [exact HS|].
  apply (C10_frontier_cells_are_walls (λ _, 0) 3 3 _ _ _ _
           ltac:(intros k; simpl; lia) ltac:(lia) ltac:(lia) HS).
Defined.

(** ** The position between two cells *)

(** Claim C8 (midpoint).  For two positions exactly 2 apart in exactly one
    axis, [positionBetweenFrontierAndCell] returns the position one step
    from each of them along that axis, which is the only position adjacent
    to both; for two equal positions it returns that position. *)
Theorem C8_midpoint a b :
  (twoApart a b →
   (row a = row b →
    row (positionBetweenFrontierAndCell a b) = row a ∧
    Z.abs (col (positionBetweenFrontierAndCell a b) - col a) = 1 ∧
    Z.abs (col (positionBetweenFrontierAndCell a b) - col b) = 1) ∧
   (col a = col b →
    col (positionBetweenFrontierAndCell a b) = col a ∧
    Z.abs (row (positionBetweenFrontierAndCell a b) - row a) = 1 ∧
    Z.abs (row (positionBetweenFrontierAndCell a b) - row b) = 1) ∧
   (∀ p, adjacent a p → adjacent p b → p = positionBetweenFrontierAndCell a b)) ∧
  positionBetweenFrontierAndCell a a = a.
Proof.
  split.
  - intros Htwo. unfold positionBetweenFrontierAndCell, twoApart, adjacent in *.
    rewrite !Z.gtb_ltb.
    repeat (match goal with |- context [?x <? ?y] => destruct (Z.ltb_spec x y) end);
      simpl; (split_and!; [lia | lia |]);
      intros [r c] Ha Hb; destruct a, b; simpl in *; f_equal; lia.
  - unfold positionBetweenFrontierAndCell. rewrite !Z.gtb_ltb, !Z.ltb_irrefl. done.
Qed.

Example midpoint_of_a_row :
  positionBetweenFrontierAndCell (mkPosition 4 7) (mkPosition 4 5) = mkPosition 4 6 ∧
  positionBetweenFrontierAndCell (mkPosition 4 5) (mkPosition 4 7) = mkPosition 4 6.
Proof. split; reflexivity. Qed.

Example midpoint_of_a_column :
  positionBetweenFrontierAndCell (mkPosition 1 3) (mkPosition 3 3) = mkPosition 2 3 ∧
  positionBetweenFrontierAndCell (mkPosition 3 3) (mkPosition 1 3) = mkPosition 2 3.
Proof. split; reflexivity. Qed.

(** ** Printing *)

Lemma string_app_assoc (s t u : string) : (s +:+ t) +:+ u = s +:+ (t +:+ u).
Proof.
  induction s as [|c s IH]; [done|].
  change (String c ((s +:+ t) +:+ u) = String c (s +:+ (t +:+ u))). by rewrite IH.
Qed.

Lemma string_app_nil_r (s : string) : s +:+ "" = s.
Proof.
  induction s as [|c s IH]; [done|].
  change (String c (s +:+ "") = String c s). by rewrite IH.
Qed.

Lemma emitted_emitted m s t : emitted (emitted m s) t = emitted m (s +:+ t).
Proof. unfold emitted. simpl. by rewrite string_app_assoc. Qed.

Lemma emitted_nil m : emitted m "" = m.
Proof. destruct m. unfold emitted. simpl. by rewrite string_app_nil_r. Qed.

Lemma for_each_cout {A} (f : A → string) (v : list A) m :
  for_each v (λ x, cout (f x)) m = Ok tt (emitted m (foldr String.append "" (f <$> v))).
Proof.
  revert m. induction v as [|x v IH]; intros m; simpl.
  - unfold ret. by rewrite emitted_nil.
  - unfold bind, cout at 1. fold (emitted m (f x)). by rewrite IH, emitted_emitted.
Qed.

Lemma print_rows (rows : list (list Cell)) m :
  for_each rows (λ row,
    do _ <- for_each row (λ cell, cout (glyph cell));;
    cout endl) m =
  Ok tt (emitted m
           (foldr String.append ""
              ((λ row, foldr String.append "" (glyph <$> row) +:+ endl) <$> rows))).
Proof.
  revert m. induction rows as [|r rows IH]; intros m; simpl.
  - unfold ret. by rewrite emitted_nil.
  - unfold bind at 1. unfold bind at 1. rewrite for_each_cout.
    unfold cout at 1. fold (emitted (emitted m (foldr String.append "" (glyph <$> r))) endl).
    rewrite IH, !emitted_emitted. f_equal. by rewrite <- string_app_assoc.
Qed.

Lemma fmap_by_index {A B} (f : A → B) (g : Z → B) (l : list A) (n : Z) :
  length l = Z.to_nat n →
  (∀ i x, l !! i = Some x → f x = g (Z.of_nat i)) →
  f <$> l = g <$> seqZ 0 n.
Proof.
  intros Hlen Hfg. apply list_eq. intros i. rewrite !list_lookup_fmap.
  destruct (l !! i) as [x|] eqn:Hi; simpl.
  - pose proof (lookup_lt_Some _ _ _ Hi).
    rewrite lookup_seqZ_lt by lia. simpl. f_equal. rewrite Z.add_0_l. by eapply Hfg.
  - apply lookup_ge_None in Hi. by rewrite lookup_seqZ_ge by lia.
Qed.

Lemma rows_render g :
  wf g →
  foldr String.append ""
    ((λ row, foldr String.append "" (glyph <$> row) +:+ endl) <$> _cells g) =
  render g.
Proof.
  intros [Hlen Hrows]. unfold render. f_equal.
  apply fmap_by_index; [done|].
  intros i r Hi. unfold renderLine. f_equal. f_equal.
  apply fmap_by_index.
  - eapply Forall_lookup_1 in Hrows; eauto.
  - intros j c Hj. unfold cellOf, cellsLookup. simpl.
    by rewrite !Nat2Z.id, Hi; simpl; rewrite Hj.
Qed.

Lemma print_ok m :
  wf (grid m) → print m = Ok tt (emitted m (render (grid m))).
Proof.
  intros Hwf. unfold print, bind at 1, getGrid. rewrite print_rows.
  by rewrite rows_render.
Qed.

Lemma wf_generateMaze rnd width height fuel run m :
  (∀ k, 0 ≤ rnd k) → 0 < width → 0 < height →
  width * height ≤ Z.of_nat fuel →
  generateMaze rnd fuel (initial width height) = Ok run m →
  wf (grid m).
Proof.
  intros Hrnd Hw Hh Hfuel Hrun.
  destruct (generateMaze_ok rnd width height fuel Hrnd Hw Hh Hfuel)
    as (start & n & m' & Hrun' & _ & HS).
  rewrite Hrun' in Hrun. injection Hrun as _ ->.
  apply LoopState_LoopInv in HS as (HI & _); [|done..]. apply HI.
Qed.

(** Claim C9 (printing is a pure read).  On a grid that satisfies the
    class invariant, as every grid that [generateMaze] leaves does
    ([wf_generateMaze]): a call of [print] changes nothing
    but the standard output, to which it appends the rendering of the grid:
    for each row from the top, the glyphs of its cells in column order (the
    wall glyph for a Wall, a space for a Path) and a newline.  Any number of
    calls leaves the grid as it is and appends the same text that many
    times. *)
Theorem C9_print_pure_read m :
  wf (grid m) →
  print m = Ok tt (emitted m (render (grid m))) ∧
  ∀ n, callTimes n print m = Ok tt (emitted m (copies n (render (grid m)))).
Proof.
  intros Hwf. split; [by apply print_ok|].
  intros n. unfold copies.
  assert (∀ m', grid m' = grid m →
            callTimes n print m' =
            Ok tt (emitted m' (foldr String.append "" (replicate n (render (grid m))))))
    as Hn; [|by apply Hn].
  induction n as [|n IH]; intros m' Hg; simpl.
  - unfold ret. by rewrite emitted_nil.
  - unfold bind. rewrite print_ok by (by rewrite Hg). rewrite IH by done.
    by rewrite emitted_emitted, Hg.
Qed.

Lemma C9_print_pure_read_witness :
  print (initial 2 1) = Ok tt (emitted (initial 2 1) (render (grid (initial 2 1)))) ∧
  ∀ n, callTimes n print (initial 2 1) =
       Ok tt (emitted (initial 2 1) (copies n (render (grid (initial 2 1))))).
Proof.
  apply (C9_print_pure_read (initial 2 1)).
  split; [reflexivity | repeat constructor].
Defined.

(** ** The whole program *)

(** [main] returns 0: generation completes on the 30 by 20 grid and the
    maze is printed. *)
Lemma main_returns_0 rnd fuel :
  (∀ k, 0 ≤ rnd k) → (600 ≤ fuel)%nat →
  ∃ run m,
    generateMaze rnd fuel (initial 30 20) = Ok run m ∧
    main rnd fuel = Ok 0 (emitted m (render (grid m))).
Proof.
  intros Hrnd Hfuel.
  destruct (generateMaze_ok rnd 30 20 fuel Hrnd) as (start & n & m & Hrun & _ & _);
    [lia..|].
  exists (mkRun start [] n), m. split; [done|].
  unfold main, bind at 1. rewrite Hrun. unfold bind.
  rewrite print_ok; [done|].
  eapply wf_generateMaze; [| | | |exact Hrun]; [done|lia..].
Qed.

(** A 3 by 3 grid with draws that are all 0: the maze starts in the top
    left corner and leaves one block of wall. *)
Example maze_3_3 :
  ∃ run m,
    generateMaze (λ _, 0) 9 (initial 3 3) = Ok run m ∧
    startPos run = mkPosition 0 0 ∧
    render (grid m) = "   " +:+ endl +:+ " ██" +:+ endl +:+ "   " +:+ endl.
Proof. eexists _, _. split; [vm_compute; reflexivity|]. split; reflexivity. Qed.

(** * Further properties of the code *)

(** ** The constructor and the cell accessor *)

(** X1 ([Grid::Grid]).  For every width and height, the constructor
    stores the two dimensions and builds [height] rows of [width] Wall
    cells, none at all when [height] is not positive; the class invariant
    holds, and with a dimension that is not positive no position is in the
    grid. *)
Theorem X1_Grid_new width height :
  _width (Grid_new width height) = width ∧
  _height (Grid_new width height) = height ∧
  _cells (Grid_new width height) =
    replicate (Z.to_nat height) (replicate (Z.to_nat width) Wall) ∧
  wf (Grid_new width height) ∧
  (height ≤ 0 → _cells (Grid_new width height) = []) ∧
  (width ≤ 0 ∨ height ≤ 0 →
   ∀ pos, isPositionInGrid (Grid_new width height) pos = false).
Proof.
  split_and!; [done|done|apply cells_Grid_new|apply wf_Grid_new| |].
  - intros Hh. rewrite cells_Grid_new. by replace (Z.to_nat height) with 0%nat by lia.
  - intros Hdim pos. rewrite isPositionInGrid_decide.
    apply bool_decide_eq_false_2. unfold InGrid. simpl. lia.
Qed.

(** X2 ([Grid::cellAtPosition]).  On a grid that satisfies the class
    invariant, the accessor fails exactly for the positions outside the
    grid, and then by its assertion; inside the grid a read returns the
    cell and changes nothing, and a write stores the cell at that position
    and changes nothing else, apart from the record of the call. *)
Theorem X2_cellAtPosition_assertion pos m :
  wf (grid m) →
  (InGrid (grid m) pos →
   cellAtPosition pos m = Ok (cellOf (grid m) pos) (logged m [pos]) ∧
   ∀ c, cellAtPosition_assign pos c m =
        Ok tt (withGrid (logged m [pos]) (cellsStore (grid m) pos c))) ∧
  (¬ InGrid (grid m) pos →
   cellAtPosition pos m = Abort AssertionFailed ∧
   ∀ c, cellAtPosition_assign pos c m = Abort AssertionFailed).
Proof.
  intros Hwf. split.
  - intros Hin. split; [by apply cellAtPosition_ok|].
    intros c. by apply cellAtPosition_assign_ok.
  - intros Hout.
    unfold cellAtPosition, cellAtPosition_assign, bind, logAccess, getGrid. simpl.
    by rewrite isPositionInGrid_decide, bool_decide_eq_false_2.
Qed.

Lemma X2_cellAtPosition_assertion_witness :
  (InGrid (grid (initial 2 2)) (mkPosition 1 2) →
   cellAtPosition (mkPosition 1 2) (initial 2 2) =
     Ok (cellOf (grid (initial 2 2)) (mkPosition 1 2))
        (logged (initial 2 2) [mkPosition 1 2]) ∧
   ∀ c, cellAtPosition_assign (mkPosition 1 2) c (initial 2 2) =
        Ok tt (withGrid (logged (initial 2 2) [mkPosition 1 2])
                 (cellsStore (grid (initial 2 2)) (mkPosition 1 2) c))) ∧
  (¬ InGrid (grid (initial 2 2)) (mkPosition 1 2) →
   cellAtPosition (mkPosition 1 2) (initial 2 2) = Abort AssertionFailed ∧
   ∀ c, cellAtPosition_assign (mkPosition 1 2) c (initial 2 2) =
        Abort AssertionFailed).
Proof.
  apply (X2_cellAtPosition_assertion (mkPosition 1 2) (initial 2 2)).
  split; [reflexivity | repeat constructor].
Defined.

(** X3 ([Grid::cellAtPosition], write then read).  After a cell has been
    assigned at a position of the grid, reading that position returns the
    assigned cell, and reading any other position of the grid returns what
    it held before; the dimensions and the class invariant are kept. *)
Theorem X3_assign_then_read pos c q m :
  wf (grid m) → InGrid (grid m) pos → InGrid (grid m) q →
  ∃ m',
    (do _ <- cellAtPosition_assign pos c;; cellAtPosition q) m =
      Ok (if decide (q = pos) then c else cellOf (grid m) q) m' ∧
    wf (grid m') ∧
    _width (grid m') = _width (grid m) ∧ _height (grid m') = _height (grid m).
Proof.
  intros Hwf Hpos Hq. eexists. split_and!.
  - unfold bind. rewrite cellAtPosition_assign_ok by done.
    rewrite cellAtPosition_ok; [|by apply wf_cellsStore|done].
    simpl. f_equal. case_decide as Heq.
    + subst q. by apply cellOf_cellsStore_eq.
    + apply cellOf_cellsStore_ne; [done|done|]. by intros ->.
  - by apply wf_cellsStore.
  - done.
  - done.
Qed.

Lemma X3_assign_then_read_witness :
  ∃ m',
    (do _ <- cellAtPosition_assign (mkPosition 1 0) Path;;
     cellAtPosition (mkPosition 1 0)) (initial 2 2) =
      Ok (if decide (mkPosition 1 0 = mkPosition 1 0) then Path
          else cellOf (grid (initial 2 2)) (mkPosition 1 0)) m' ∧
    wf (grid m') ∧
    _width (grid m') = _width (grid (initial 2 2)) ∧
    _height (grid m') = _height (grid (initial 2 2)).
Proof.
  apply (X3_assign_then_read (mkPosition 1 0) Path (mkPosition 1 0) (initial 2 2)).
  - split; [reflexivity | repeat constructor].
  - unfold InGrid. simpl. lia.
  - unfold InGrid. simpl. lia.
Defined.

(** ** The cells two steps away *)

Lemma length_filter_split {A} (P Q R : A → Prop)
    `{!∀ x, Decision (P x), !∀ x, Decision (Q x), !∀ x, Decision (R x)}
    (l : list A) :
  (∀ x, P x ↔ Q x ∨ R x) → (∀ x, Q x → R x → False) →
  (length (filter Q l) + length (filter R l))%nat = length (filter P l).
Proof.
  intros HP Hdisj. induction l as [|a l IH]; [done|].
  rewrite !filter_cons. pose proof (HP a). pose proof (Hdisj a).
  destruct (decide (P a)), (decide (Q a)), (decide (R a)); simpl; try tauto; lia.
Qed.

(** X4 ([Grid::frontierCellsForPositionMatchingCell]).  On a grid that
    satisfies the class invariant the function never fails, whatever the
    position, inside the grid or not.  It changes neither the grid nor the
    random source nor the output, and returns without repetition, in the
    order left, right, top, bottom, exactly the positions two steps away
    that are in the grid and hold the given cell: at most four. *)
Theorem X4_frontier_total pos cell m :
  wf (grid m) →
  ∃ l m',
    frontierCellsForPositionMatchingCell pos cell m = Ok l m' ∧
    grid m' = grid m ∧ randCalls m' = randCalls m ∧ stdout m' = stdout m ∧
    (∀ q, q ∈ l ↔ q ∈ offsets pos ∧ InGrid (grid m) q ∧ cellOf (grid m) q = cell) ∧
    NoDup l ∧ l `sublist_of` offsets pos ∧ (length l ≤ 4)%nat.
Proof.
  intros Hwf. eexists _, _. split; [by apply frontierCellsForPositionMatchingCell_ok|].
  split_and!; try done.
  - intros q. apply elem_of_matching.
  - apply NoDup_matching.
  - apply sublist_filter.
  - apply (sublist_length _ (offsets pos)), sublist_filter.
Qed.

Lemma X4_frontier_total_witness :
  ∃ l m',
    frontierCellsForPositionMatchingCell (mkPosition 0 5) Wall (initial 4 3) = Ok l m' ∧
    grid m' = grid (initial 4 3) ∧ randCalls m' = randCalls (initial 4 3) ∧
    stdout m' = stdout (initial 4 3) ∧
    (∀ q, q ∈ l ↔ q ∈ offsets (mkPosition 0 5) ∧ InGrid (grid (initial 4 3)) q ∧
                  cellOf (grid (initial 4 3)) q = Wall) ∧
    NoDup l ∧ l `sublist_of` offsets (mkPosition 0 5) ∧ (length l ≤ 4)%nat.
Proof.
  apply (X4_frontier_total (mkPosition 0 5) Wall (initial 4 3)).
  split; [reflexivity | repeat constructor].
Defined.

(** X5 ([Grid::frontierCellsForPositionMatchingCell], walls and paths).
    The walls and the paths that the function finds around a position share
    no position, and together they are the positions two steps away that
    are in the grid. *)
Theorem X5_frontier_partition pos m :
  wf (grid m) →
  ∃ walls m1 paths m2,
    frontierCellsForPositionMatchingCell pos Wall m = Ok walls m1 ∧
    frontierCellsForPositionMatchingCell pos Path m1 = Ok paths m2 ∧
    (∀ q, q ∈ walls → q ∉ paths) ∧
    (∀ q, q ∈ offsets pos → InGrid (grid m) q → q ∈ walls ∨ q ∈ paths) ∧
    (length walls + length paths)%nat =
      length (filter (InGrid (grid m)) (offsets pos)).
Proof.
  intros Hwf. eexists _, _, _, _.
  split; [by apply frontierCellsForPositionMatchingCell_ok|].
  split; [by apply frontierCellsForPositionMatchingCell_ok|].
  simpl grid. split_and!.
  - intros q (_ & _ & Hw)%elem_of_matching (_ & _ & Hp)%elem_of_matching. congruence.
  - intros q Hq Hin. rewrite !elem_of_matching.
    destruct (cellOf (grid m) q); tauto.
  - unfold matching. apply length_filter_split.
    + intros q. destruct (cellOf (grid m) q); split; try tauto;
        intros [[_ ?]|[_ ?]]; done.
    + intros q [_ Hw] [_ Hp]. congruence.
Qed.

Lemma X5_frontier_partition_witness :
  ∃ walls m1 paths m2,
    frontierCellsForPositionMatchingCell (mkPosition 0 0) Wall (initial 3 3) = Ok walls m1 ∧
    frontierCellsForPositionMatchingCell (mkPosition 0 0) Path m1 = Ok paths m2 ∧
    (∀ q, q ∈ walls → q ∉ paths) ∧
    (∀ q, q ∈ offsets (mkPosition 0 0) → InGrid (grid (initial 3 3)) q →
          q ∈ walls ∨ q ∈ paths) ∧
    (length walls + length paths)%nat =
      length (filter (InGrid (grid (initial 3 3))) (offsets (mkPosition 0 0))).
Proof.
  apply (X5_frontier_partition (mkPosition 0 0) (initial 3 3)).
  split; [reflexivity | repeat constructor].
Defined.

(** ** The position between two cells, in general *)

(** X6 ([Grid::positionBetweenFrontierAndCell], any two positions).  For
    two different positions, however far apart, the function returns the
    cell position moved by one step towards the frontier position: along
    the rows when the rows differ, along the columns otherwise.  The result
    is one step closer to the frontier position, and it is in the grid when
    the two positions are. *)
Theorem X6_one_step_closer frontierPos cellPos :
  cellPos ≠ frontierPos →
  adjacent cellPos (positionBetweenFrontierAndCell frontierPos cellPos) ∧
  dist (positionBetweenFrontierAndCell frontierPos cellPos) frontierPos =
    dist cellPos frontierPos - 1 ∧
  (row cellPos ≠ row frontierPos →
   col (positionBetweenFrontierAndCell frontierPos cellPos) = col cellPos) ∧
  (row cellPos = row frontierPos →
   row (positionBetweenFrontierAndCell frontierPos cellPos) = row cellPos) ∧
  ∀ g, InGrid g frontierPos → InGrid g cellPos →
       InGrid g (positionBetweenFrontierAndCell frontierPos cellPos).
Proof.
  intros Hne.
  assert (row cellPos ≠ row frontierPos ∨ col cellPos ≠ col frontierPos) as Hdiff.
  { destruct (decide (row cellPos = row frontierPos)) as [Hr|]; [|by left].
    right. intros Hc. apply Hne. destruct cellPos, frontierPos; simpl in *. congruence. }
  unfold positionBetweenFrontierAndCell, dist, adjacent, InGrid.
  rewrite !Z.gtb_ltb.
  repeat (match goal with |- context [?x <? ?y] => destruct (Z.ltb_spec x y) end);
    simpl; (split_and!; [lia..|intros g ? ?; lia]).
Qed.

Lemma X6_one_step_closer_witness :
  adjacent (mkPosition 1 1)
    (positionBetweenFrontierAndCell (mkPosition 6 9) (mkPosition 1 1)) ∧
  dist (positionBetweenFrontierAndCell (mkPosition 6 9) (mkPosition 1 1))
       (mkPosition 6 9) = dist (mkPosition 1 1) (mkPosition 6 9) - 1 ∧
  (row (mkPosition 1 1) ≠ row (mkPosition 6 9) →
   col (positionBetweenFrontierAndCell (mkPosition 6 9) (mkPosition 1 1)) =
   col (mkPosition 1 1)) ∧
  (row (mkPosition 1 1) = row (mkPosition 6 9) →
   row (positionBetweenFrontierAndCell (mkPosition 6 9) (mkPosition 1 1)) =
   row (mkPosition 1 1)) ∧
  ∀ g, InGrid g (mkPosition 6 9) → InGrid g (mkPosition 1 1) →
       InGrid g (positionBetweenFrontierAndCell (mkPosition 6 9) (mkPosition 1 1)).
Proof.
  apply (X6_one_step_closer (mkPosition 6 9) (mkPosition 1 1)).
  intros H. discriminate H.
Defined.

(** ** The frontier list *)

Lemma erase_remove_if_filter pred v :
  erase_remove_if pred v = filter (λ x, pred x = false) v.
Proof.
  induction v as [|x v IH]; [done|]. simpl. rewrite filter_cons, IH.
  destruct (pred x); by case_decide.
Qed.

Lemma delete_app_lt {A} (l k : list A) i :
  (i < length l)%nat → delete i (l ++ k) = delete i l ++ k.
Proof.
  revert i. induction l as [|x l IH]; intros i Hi; simpl in *; [lia|].
  destruct i as [|i]; [done|]. simpl. f_equal. apply IH. lia.
Qed.

(** X7 ([Position::operator==] and the lambda [cellAlreadyInFrontier]).
    The equality of positions holds exactly for equal rows and equal
    columns, in either order of its operands; the lambda answers true
    exactly for the positions that occur in the frontier list. *)
Theorem X7_cellAlreadyInFrontier frontierCells p q :
  (Position_eqb p q = true ↔ p = q) ∧
  Position_eqb p q = Position_eqb q p ∧
  (cellAlreadyInFrontier frontierCells p = true ↔ p ∈ frontierCells) ∧
  (cellAlreadyInFrontier [] p = false).
Proof.
  split_and!.
  - apply Position_eqb_eq.
  - unfold Position_eqb. by rewrite (Z.eqb_sym (row q)), (Z.eqb_sym (col q)).
  - apply cellAlreadyInFrontier_spec.
  - done.
Qed.

(** X8 (the update of the frontier list, lines 104-111).  When neither the
    frontier list nor the new frontier repeats a position, the updated list
    is the old one without the processed cell, in its order, followed by
    the new positions that the old list did not hold.  It repeats no
    position, does not hold the processed cell, and loses no other
    position. *)
Theorem X8_updateFrontier frontierCells i f newFrontier :
  NoDup frontierCells → NoDup newFrontier →
  frontierCells !! Z.to_nat i = Some f →
  (updateFrontier frontierCells i newFrontier =
     delete (Z.to_nat i) frontierCells ++
     filter (λ p, p ∉ frontierCells) newFrontier) ∧
  NoDup (updateFrontier frontierCells i newFrontier) ∧
  (f ∉ updateFrontier frontierCells i newFrontier) ∧
  (∀ x, x ≠ f → x ∈ frontierCells ∨ x ∈ newFrontier →
        x ∈ updateFrontier frontierCells i newFrontier) ∧
  (∀ x, x ∈ updateFrontier frontierCells i newFrontier →
        x ∈ frontierCells ∨ x ∈ newFrontier).
Proof.
  intros Hfr Hnew Hi.
  destruct (updateFrontier_spec frontierCells i f newFrontier Hfr Hnew Hi) as [Hnd Hmem].
  split_and!; [|done|..].
  - unfold updateFrontier. rewrite delete_app_lt by (by eapply lookup_lt_Some).
    f_equal. rewrite erase_remove_if_filter. apply filter_ext_in.
    intros y _. rewrite <- not_true_iff_false, cellAlreadyInFrontier_spec. done.
  - intros Hf. apply Hmem in Hf. tauto.
  - intros x Hx Hin. apply Hmem. tauto.
  - intros x Hx. apply Hmem in Hx. tauto.
Qed.

Lemma X8_updateFrontier_witness :
  (updateFrontier [mkPosition 0 2; mkPosition 2 0] 0 [mkPosition 0 4; mkPosition 2 0] =
     delete (Z.to_nat 0) [mkPosition 0 2; mkPosition 2 0] ++
     filter (λ p, p ∉ [mkPosition 0 2; mkPosition 2 0])
       [mkPosition 0 4; mkPosition 2 0]) ∧
  NoDup (updateFrontier [mkPosition 0 2; mkPosition 2 0] 0
           [mkPosition 0 4; mkPosition 2 0]) ∧
  (mkPosition 0 2 ∉ updateFrontier [mkPosition 0 2; mkPosition 2 0] 0
                       [mkPosition 0 4; mkPosition 2 0]) ∧
  (∀ x, x ≠ mkPosition 0 2 →
        x ∈ [mkPosition 0 2; mkPosition 2 0] ∨ x ∈ [mkPosition 0 4; mkPosition 2 0] →
        x ∈ updateFrontier [mkPosition 0 2; mkPosition 2 0] 0
              [mkPosition 0 4; mkPosition 2 0]) ∧
  (∀ x, x ∈ updateFrontier [mkPosition 0 2; mkPosition 2 0] 0
              [mkPosition 0 4; mkPosition 2 0] →
        x ∈ [mkPosition 0 2; mkPosition 2 0] ∨ x ∈ [mkPosition 0 4; mkPosition 2 0]).
Proof.
  apply (X8_updateFrontier [mkPosition 0 2; mkPosition 2 0] 0 (mkPosition 0 2)
           [mkPosition 0 4; mkPosition 2 0]).
  - apply (bool_decide_unpack (NoDup [mkPosition 0 2; mkPosition 2 0])).
    vm_compute. exact I.
  - apply (bool_decide_unpack (NoDup [mkPosition 0 4; mkPosition 2 0])).
    vm_compute. exact I.
  - reflexivity.
Defined.

(** ** The shape of the maze *)

Lemma elem_of_allPositions g p : p ∈ allPositions g ↔ InGrid g p.
Proof.
  unfold allPositions. rewrite list_elem_of_bind. split.
  - intros (r & (c & -> & Hc%elem_of_seqZ)%list_elem_of_fmap & Hr%elem_of_seqZ).
    unfold InGrid. simpl. lia.
  - intros [Hr Hc]. exists (row p). split.
    + apply list_elem_of_fmap. exists (col p). split; [by destruct p|].
      apply elem_of_seqZ. lia.
    + apply elem_of_seqZ. lia.
Qed.

Lemma NoDup_allPositions g : NoDup (allPositions g).
Proof.
  unfold allPositions. apply NoDup_bind; [| |apply NoDup_seqZ].
  - intros r1 r2 p _ _ (c1 & -> & _)%list_elem_of_fmap (c2 & [= -> _] & _)%list_elem_of_fmap.
    done.
  - intros r _. apply NoDup_fmap_2_strong; [|apply NoDup_seqZ].
    by intros c1 c2 _ _ [= ->].
Qed.

Lemma filter_none {A} (P : A → Prop) `{!∀ x, Decision (P x)} (l : list A) :
  (∀ y, y ∈ l → ¬ P y) → filter P l = [].
Proof.
  induction l as [|a l IH]; intros HP; [done|].
  rewrite filter_cons_False by apply HP, list_elem_of_here.
  apply IH. intros y Hy. by apply HP, list_elem_of_further.
Qed.

Lemma pathCount_Grid_new width height : pathCount (Grid_new width height) = 0%nat.
Proof.
  unfold pathCount. rewrite filter_none; [done|].
  intros p _. by rewrite cellOf_Grid_new.
Qed.

Lemma pathCount_store g p :
  wf g → InGrid g p → cellOf g p = Wall →
  pathCount (cellsStore g p Path) = S (pathCount g).
Proof.
  intros Hwf Hin Hwall. unfold pathCount.
  change (allPositions (cellsStore g p Path)) with (allPositions g).
  apply (length_filter_remove _ _ _ p).
  - apply NoDup_allPositions.
  - by apply elem_of_allPositions.
  - by apply cellOf_cellsStore_eq.
  - by rewrite Hwall.
  - intros y Hy%elem_of_allPositions Hne. by rewrite cellOf_cellsStore_ne.
Qed.

Lemma lattice_neighbours_of_between n f a :
  n ∈ offsets f → adjacent a (positionBetweenFrontierAndCell n f) →
  sameLattice a f → a = f ∨ a = n.
Proof.
  rewrite elem_of_offsets. unfold positionBetweenFrontierAndCell.
  rewrite !Z.gtb_ltb. intros Hoff.
  destruct a as [ar ac], f as [fr fc], n as [nr nc]. simpl in *.
  repeat (match goal with |- context [?x <? ?y] => destruct (Z.ltb_spec x y) end);
    intros Hadj Hlat;
    assert ((ar = fr ∧ ac = fc) ∨ (ar = nr ∧ ac = nc)) as [[-> ->]|[-> ->]]
      by zmod; auto.
Qed.

Lemma Shape_step start g frontierCells i f n :
  Inv start g frontierCells → Shape start g frontierCells →
  frontierCells !! Z.to_nat i = Some f →
  n ∈ matching (cellsStore g f Path) f Path →
  let g2 := cellsStore (cellsStore g f Path)
              (positionBetweenFrontierAndCell n f) Path in
  Shape start g2 (updateFrontier frontierCells i (matching g2 f Wall)) ∧
  cellOf g (positionBetweenFrontierAndCell n f) = Wall ∧
  pathCount g2 = S (S (pathCount g)).
Proof.
  intros HI HS Hi Hn.
  set (g1 := cellsStore g f Path) in *.
  set (mid := positionBetweenFrontierAndCell n f). intros g2.
  destruct HI as [Hwf Hstart Hin Hlat Hwall Hnext Hnd Hconn].
  destruct HS as [Hpil Hpass Hclosed].
  assert (f ∈ frontierCells) as Hf by (by eapply list_elem_of_lookup_2).
  pose proof (Hin f Hf) as Hfin. pose proof (Hlat f Hf) as Hflat.
  pose proof (Hwall f Hf) as Hfwall.
  apply elem_of_matching in Hn as (Hoff & Hnin & Hnpath).
  pose proof (offsets_ne _ _ Hoff) as Hnf.
  assert (isPath g n) as Hng.
  { split; [done|]. unfold g1 in Hnpath.
    rewrite cellOf_cellsStore_ne in Hnpath; auto. }
  destruct (positionBetween_spec n f Hoff) as (Hadj1 & Hadj2 & Hmidlat & Hmidin).
  fold mid in Hadj1, Hadj2, Hmidlat, Hmidin.
  assert (InGrid g mid) as Hmid by (by apply Hmidin).
  assert (mid ≠ f) as Hmf by (intros E; apply Hmidlat; by rewrite E).
  assert (¬ sameLattice mid start) as Hmidstart.
  { intros Hm. apply Hmidlat. unfold sameLattice in *. destruct Hm, Hflat. split; congruence. }
  assert (wf g1) as Hwf1 by (by apply wf_cellsStore).
  assert (grows g g1) as Hg1 by (by apply grows_cellsStore).
  assert (grows g1 g2) as Hg12 by (by apply grows_cellsStore).
  assert (grows g g2) as Hg2 by (by eapply grows_trans).
  assert (cellOf g2 f = Path) as Hf2.
  { unfold g2. rewrite cellOf_cellsStore_ne by done. by apply cellOf_cellsStore_eq. }
  assert (cellOf g2 mid = Path) as Hmid2 by (by apply cellOf_cellsStore_eq).
  assert (∀ q, InGrid g q → q ≠ f → q ≠ mid → cellOf g2 q = cellOf g q) as Hother.
  { intros q Hq Hqf Hqm. unfold g2, g1. rewrite !cellOf_cellsStore_ne; auto. }
  assert (∀ p, isPath g2 p → p = f ∨ p = mid ∨ isPath g p) as Hcases.
  { intros p [Hp Hpp].
    destruct (decide (p = f)) as [|Hpf]; [by left|].
    destruct (decide (p = mid)) as [|Hpm]; [by right; left|].
    right; right. split; [done|]. by rewrite <- Hother. }
  assert (cellOf g mid = Wall) as Hmidwall.
  { destruct (cellOf g mid) eqn:Hc; [done|]. exfalso.
    assert (isPath g f) as [_ Hfp]; [|congruence].
    apply (Hpass mid); [done|done|by apply adjacent_sym|done]. }
  destruct (updateFrontier_spec frontierCells i f (matching g2 f Wall) Hnd
              (NoDup_matching _ _ _) Hi) as [_ Hmem].
  split_and!; [split| done |].
  - intros p [->|[->|Hp]]%Hcases.
    + left. apply Hflat.
    + destruct Hflat as [Hr Hc]. rewrite <- Hr, <- Hc. clear -Hadj2. zmod.
    + by apply Hpil.
  - intros p [->|[->|Hp]]%Hcases Hoffl a Hadj Hal.
    + done.
    + assert (sameLattice a f) as Haf.
      { unfold sameLattice in *. destruct Hal, Hflat. split; congruence. }
      destruct (lattice_neighbours_of_between n f a Hoff Hadj Haf) as [->| ->].
      * by split.
      * by apply (isPath_grows g).
    + apply (isPath_grows g); [done|]. by apply (Hpass p).
  - intros p Hp2 Hpl q Hq Hqin Hqwall. apply Hmem.
    assert (q ≠ f) as Hqf by (intros ->; congruence).
    split; [done|].
    apply Hcases in Hp2 as [->|[->|Hp]].
    + right. by apply elem_of_matching.
    + done.
    + left. apply (Hclosed p); [done|done|done|done|].
      destruct (cellOf g q) eqn:Hc; [done|].
      destruct Hg2 as (_ & _ & Hg2). rewrite Hg2 in Hqwall; done.
  - unfold g2. rewrite pathCount_store; [|done|done|].
    + f_equal. by apply pathCount_store.
    + unfold g1. by rewrite cellOf_cellsStore_ne.
Qed.

Lemma generateMaze_start_exact rnd width height :
  (∀ k, 0 ≤ rnd k) → 0 < width → 0 < height →
  ∃ start m,
    generateMaze_start rnd (initial width height) =
      Ok (start, matching (grid m) start Wall) m ∧
    InGrid (Grid_new width height) start ∧
    grid m = cellsStore (Grid_new width height) start Path ∧
    randCalls m = 2%nat ∧ stdout m = "".
Proof.
  intros Hrnd Hw Hh.
  set (start := mkPosition (Z.rem (rnd 0%nat) height) (Z.rem (rnd 1%nat) width)).
  set (g0 := Grid_new width height).
  assert (InGrid g0 start) as Hstart.
  { pose proof (Z.rem_bound_pos (rnd 0%nat) height (Hrnd _) Hh).
    pose proof (Z.rem_bound_pos (rnd 1%nat) width (Hrnd _) Hw).
    unfold InGrid. simpl. lia. }
  pose proof (wf_Grid_new width height) as Hwf0. fold g0 in Hwf0.
  set (g1 := cellsStore g0 start Path).
  exists start,
    (logged (withGrid (logged (drawn (initial width height) 2) [start]) g1)
       (filter (InGrid g1) (offsets start))).
  split_and!; try done.
  unfold generateMaze_start, bind, getGrid, rand. simpl.
  fold start. rewrite cellAtPosition_assign_ok by done.
  rewrite frontierCellsForPositionMatchingCell_ok by (by apply wf_cellsStore). done.
Qed.

Lemma generateMaze_body_exact rnd width height start m frontierCells n :
  (∀ k, 0 ≤ rnd k) →
  LoopInv width height start m frontierCells n → frontierCells ≠ [] →
  ∃ i f y m',
    frontierCells !! Z.to_nat i = Some f ∧
    y ∈ matching (cellsStore (grid m) f Path) f Path ∧
    generateMaze_body rnd frontierCells m =
      Ok (updateFrontier frontierCells i (matching (grid m') f Wall)) m' ∧
    grid m' = cellsStore (cellsStore (grid m) f Path)
                (positionBetweenFrontierAndCell y f) Path ∧
    randCalls m' = (2 + randCalls m)%nat ∧ stdout m' = stdout m.
Proof.
  intros Hrnd (HI & _) Hne.
  pose proof (inv_wf _ _ _ HI) as Hwf.
  destruct (pickFrontierCell_ok rnd frontierCells m Hrnd Hwf Hne (inv_in_grid _ _ _ HI))
    as (f & Hi & Hpick).
  set (i := Z.rem _ _) in *. set (m1 := withGrid _ _) in *.
  assert (f ∈ frontierCells) as Hf by (by eapply list_elem_of_lookup_2).
  pose proof (inv_in_grid _ _ _ HI f Hf) as Hfin.
  assert (wf (grid m1)) as Hwf1 by (by apply wf_cellsStore).
  pose proof (frontierCellsForPositionMatchingCell_ok f Path m1 Hwf1) as Hnbs.
  set (m2 := logged m1 _) in *.
  assert (matching (grid m1) f Path ≠ []) as Hnbs_ne.
  { destruct (inv_next_to_path _ _ _ HI f Hf) as (y & Hy & Hyp).
    assert (y ∈ matching (grid m1) f Path) as Hin; [|by intros E; rewrite E in Hin; inv Hin].
    apply elem_of_matching. split; [done|].
    by apply (isPath_grows (grid m)); [apply grows_cellsStore|]. }
  destruct (carvePassage_ok rnd (matching (grid m1) f Path) f m2 Hrnd Hwf1 Hnbs_ne Hfin)
    as (y & Hy & Hcarve).
  { intros y Hy. apply elem_of_matching in Hy. tauto. }
  set (m3 := withGrid _ _) in Hcarve.
  assert (wf (grid m3)) as Hwf3 by (by apply wf_cellsStore).
  pose proof (frontierCellsForPositionMatchingCell_ok f Wall m3 Hwf3) as Hnew.
  exists i, f, y, (logged m3 (filter (InGrid (grid m3)) (offsets f))).
  split_and!; try done.
  unfold generateMaze_body, bind. rewrite Hpick. simpl.
  rewrite Hnbs, Hcarve, Hnew. done.
Qed.

Lemma LoopState_LoopCounts rnd width height start m frontierCells n :
  (∀ k, 0 ≤ rnd k) → 0 < width → 0 < height →
  LoopState rnd width height start m frontierCells n →
  LoopCounts start m frontierCells n.
Proof.
  intros Hrnd Hw Hh. induction 1 as [m fr Hstart|m fr n m' fr' HS IH Hne Hbody].
  - destruct (generateMaze_start_exact rnd width height Hrnd Hw Hh)
      as (s & m0 & Heq & Hs & Hg & Hcalls & _).
    rewrite Heq in Hstart. injection Hstart as -> <- ->.
    pose proof (wf_Grid_new width height) as Hwf0.
    assert (∀ p, isPath (grid m) p → p = start) as Honly.
    { intros p [Hp Hpath]. rewrite Hg in Hpath.
      destruct (decide (p = start)) as [|Hps]; [done|].
      rewrite cellOf_cellsStore_ne, cellOf_Grid_new in Hpath; [done|done| |done].
      by rewrite Hg in Hp. }
    split_and!; [split| |done].
    + intros p ->%Honly. by left.
    + intros p ->%Honly Hoffl. by destruct Hoffl.
    + intros p ->%Honly _ q Hq Hqin Hqwall. by apply elem_of_matching.
    + rewrite Hg, pathCount_store, pathCount_Grid_new; [done|done|done|].
      apply cellOf_Grid_new.
  - pose proof (LoopState_LoopInv _ _ _ _ _ _ _ Hrnd Hw Hh HS) as HL.
    destruct IH as (HShape & Hcount & Hcalls).
    destruct (generateMaze_body_exact rnd width height start m fr n Hrnd HL Hne)
      as (i & f & y & m'' & Hi & Hy & Heq & Hg & Hc & _).
    rewrite Heq in Hbody. injection Hbody as <- <-.
    destruct HL as (HI & _).
    destruct (Shape_step start (grid m) fr i f y HI HShape Hi Hy) as (HS' & _ & Hpc).
    unfold LoopCounts. rewrite Hg. split_and!; [done| |lia].
    rewrite Hpc, Hcount. lia.
Qed.

Lemma LoopState_stdout rnd width height start m frontierCells n :
  (∀ k, 0 ≤ rnd k) → 0 < width → 0 < height →
  LoopState rnd width height start m frontierCells n →
  stdout m = "".
Proof.
  intros Hrnd Hw Hh. induction 1 as [m fr Hstart|m fr n m' fr' HS IH Hne Hbody].
  - destruct (generateMaze_start_exact rnd width height Hrnd Hw Hh)
      as (s & m0 & Heq & _ & _ & _ & Hout).
    rewrite Heq in Hstart. by injection Hstart as _ _ <-.
  - pose proof (LoopState_LoopInv _ _ _ _ _ _ _ Hrnd Hw Hh HS) as HL.
    destruct (generateMaze_body_exact rnd width height start m fr n Hrnd HL Hne)
      as (i & f & y & m'' & _ & _ & Heq & _ & _ & Hout).
    rewrite Heq in Hbody. injection Hbody as _ <-. by rewrite Hout.
Qed.

(** On the step-2 lattice every position of the grid is linked to the
    starting cell by positions of the grid two steps apart; so once the
    frontier list is empty, the whole lattice of the starting cell is Path. *)
Lemma lattice_complete start g :
  Inv start g [] → Shape start g [] →
  ∀ p, InGrid g p → sameLattice p start → cellOf g p = Path.
Proof.
  intros HI HS.
  destruct (inv_start _ _ _ HI) as [Hsin Hspath].
  assert (∀ k : nat, ∀ p, InGrid g p → sameLattice p start →
            dist p start ≤ 2 * Z.of_nat k → cellOf g p = Path) as Hind.
  { induction k as [|k IH]; intros p Hp Hlat Hd.
    - assert (p = start) as ->; [|done].
      unfold dist in Hd. destruct p, start; simpl in *. f_equal; lia.
    - destruct (decide (p = start)) as [->|Hne]; [done|].
      set (p' := if decide (row p = row start)
                 then mkPosition (row p) (if decide (col p < col start)
                                          then col p + 2 else col p - 2)
                 else mkPosition (if decide (row p < row start)
                                  then row p + 2 else row p - 2) (col p)).
      assert (InGrid g p' ∧ sameLattice p' start ∧
              dist p' start ≤ 2 * Z.of_nat k ∧ p ∈ offsets p') as (Hp' & Hl' & Hd' & Hoff).
      { assert (row p ≠ row start ∨ col p ≠ col start) as Hdiff.
        { destruct (decide (row p = row start)); [|by left]. right.
          intros Hc. apply Hne. destruct p, start; simpl in *. congruence. }
        rewrite elem_of_offsets. unfold p', dist in *.
        repeat case_decide; simpl; zmod. }
      destruct (cellOf g p) eqn:Hc; [|done]. exfalso.
      assert (p ∈ ([] : list Position)) as Hin; [|by apply elem_of_nil in Hin].
      apply (shape_closed _ _ _ HS p'); try done.
      split; [done|]. by apply IH. }
  intros p Hp Hlat. apply (Hind (Z.to_nat (dist p start))); [done|done|].
  unfold dist. lia.
Qed.

Lemma length_latticePositions_exact width height start :
  0 < width → 0 < height →
  Z.of_nat (length (latticePositions (Grid_new width height) start)) =
  ((height - row start mod 2 + 1) `div` 2) * ((width - col start mod 2 + 1) `div` 2).
Proof.
  intros Hw Hh. unfold latticePositions.
  rewrite (length_bind_const _ _
             (length (latticeCoords (col start) (_width (Grid_new width height)))))
    by (intros r; apply length_fmap).
  unfold latticeCoords. rewrite !length_fmap, !length_seqZ. simpl.
  assert (0 ≤ (height - row start mod 2 + 1) `div` 2) by zmod.
  assert (0 ≤ (width - col start mod 2 + 1) `div` 2) by zmod.
  lia.
Qed.

Lemma generateMaze_final rnd width height fuel :
  (∀ k, 0 ≤ rnd k) → 0 < width → 0 < height →
  width * height ≤ Z.of_nat fuel →
  ∃ start n m,
    generateMaze rnd fuel (initial width height) = Ok (mkRun start [] n) m ∧
    LoopInv width height start m [] n ∧ LoopCounts start m [] n.
Proof.
  intros Hrnd Hw Hh Hfuel.
  destruct (generateMaze_ok rnd width height fuel Hrnd Hw Hh Hfuel)
    as (start & n & m & Hrun & _ & HS).
  exists start, n, m. split_and!; [done| |].
  - by apply (LoopState_LoopInv rnd).
  - by apply (LoopState_LoopCounts rnd width height).
Qed.

(** X9 (the pillars of the maze).  Whenever the loop of [generateMaze]
    evaluates its condition, every cell whose row and whose column both
    differ in parity from those of the starting cell is a Wall; so no
    square of two by two cells is all Path. *)
Theorem X9_pillars_stay_walls rnd width height start m frontierCells n :
  (∀ k, 0 ≤ rnd k) → 0 < width → 0 < height →
  LoopState rnd width height start m frontierCells n →
  (∀ p, InGrid (grid m) p →
        row p mod 2 ≠ row start mod 2 → col p mod 2 ≠ col start mod 2 →
        cellOf (grid m) p = Wall) ∧
  (∀ r c, ¬ (isPath (grid m) (mkPosition r c) ∧
             isPath (grid m) (mkPosition r (c + 1)) ∧
             isPath (grid m) (mkPosition (r + 1) c) ∧
             isPath (grid m) (mkPosition (r + 1) (c + 1)))).
Proof.
  intros Hrnd Hw Hh HS.
  apply (LoopState_LoopCounts rnd width height) in HS as (HShape & _); [|done..].
  pose proof (shape_pillars _ _ _ HShape) as Hpil.
  split.
  - intros p Hp Hr Hc. destruct (cellOf (grid m) p) eqn:Hcell; [done|].
    destruct (Hpil p); [by split|done|done].
  - intros r c (H1 & H2 & H3 & H4).
    apply Hpil in H1, H2, H3, H4. simpl in *. zmod.
Qed.

Lemma X9_pillars_stay_walls_witness :
  ∃ m frontierCells,
    LoopState (λ _, 0) 3 3 (mkPosition 0 0) m frontierCells 0 ∧
    (∀ p, InGrid (grid m) p →
          row p mod 2 ≠ row (mkPosition 0 0) mod 2 →
          col p mod 2 ≠ col (mkPosition 0 0) mod 2 →
          cellOf (grid m) p = Wall) ∧
    (∀ r c, ¬ (isPath (grid m) (mkPosition r c) ∧
               isPath (grid m) (mkPosition r (c + 1)) ∧
               isPath (grid m) (mkPosition (r + 1) c) ∧
               isPath (grid m) (mkPosition (r + 1) (c + 1)))).
Proof.
  eexists _, _.
  assert (LoopState (λ _, 0) 3 3 (mkPosition 0 0) _ _ 0) as HS
    by (apply LoopState_enter; vm_compute; reflexivity).
  split; [exact HS|].
  apply (X9_pillars_stay_walls (λ _, 0) 3 3 _ _ _ _
           ltac:(intros k; simpl; lia) ltac:(lia) ltac:(lia) HS).
Defined.

(** X10 (passages join two cells of the lattice).  Whenever the loop
    evaluates its condition, every Path cell that is not on the lattice of
    the starting cell lies directly between two Path cells of that lattice,
    two steps apart. *)
Theorem X10_passages_join_lattice_cells rnd width height start m frontierCells n :
  (∀ k, 0 ≤ rnd k) → 0 < width → 0 < height →
  LoopState rnd width height start m frontierCells n →
  ∀ p, isPath (grid m) p → ¬ sameLattice p start →
       ∃ a b, isPath (grid m) a ∧ isPath (grid m) b ∧
              sameLattice a start ∧ sameLattice b start ∧
              adjacent a p ∧ adjacent p b ∧ b ∈ offsets a.
Proof.
  intros Hrnd Hw Hh HS p Hp Hoffl.
  apply (LoopState_LoopCounts rnd width height) in HS as (HShape & _); [|done..].
  pose proof (shape_pillars _ _ _ HShape p Hp) as Hpil.
  pose proof (shape_passage _ _ _ HShape p Hp Hoffl) as Hpass.
  destruct (decide (row p mod 2 = row start mod 2)) as [Hr|Hr].
  - exists (mkPosition (row p) (col p - 1)), (mkPosition (row p) (col p + 1)).
    rewrite elem_of_offsets.
    split_and!; [apply Hpass|apply Hpass|..]; clear Hpass; zmod.
  - exists (mkPosition (row p - 1) (col p)), (mkPosition (row p + 1) (col p)).
    rewrite elem_of_offsets.
    split_and!; [apply Hpass|apply Hpass|..]; clear Hpass; zmod.
Qed.

Lemma X10_passages_join_lattice_cells_witness :
  ∃ m frontierCells,
    LoopState (λ _, 0) 3 3 (mkPosition 0 0) m frontierCells 1 ∧
    ∀ p, isPath (grid m) p → ¬ sameLattice p (mkPosition 0 0) →
         ∃ a b, isPath (grid m) a ∧ isPath (grid m) b ∧
                sameLattice a (mkPosition 0 0) ∧ sameLattice b (mkPosition 0 0) ∧
                adjacent a p ∧ adjacent p b ∧ b ∈ offsets a.
Proof.
  eexists _, _.
  assert (LoopState (λ _, 0) 3 3 (mkPosition 0 0) _ _ 0) as HS
    by (apply LoopState_enter; vm_compute; reflexivity).
  assert (LoopState (λ _, 0) 3 3 (mkPosition 0 0) _ _ 1) as HS'
    by (eapply LoopState_iterate; [exact HS | done | vm_compute; reflexivity]).
  split; [exact HS'|].
  apply (X10_passages_join_lattice_cells (λ _, 0) 3 3 _ _ _ _
           ltac:(intros k; simpl; lia) ltac:(lia) ltac:(lia) HS').
Defined.

(** X11 (what the frontier list holds).  Whenever the loop evaluates its
    condition, the frontier list holds exactly the Wall cells of the grid
    that are two steps away from a Path cell on the lattice of the starting
    cell. *)
Theorem X11_frontier_characterised rnd width height start m frontierCells n :
  (∀ k, 0 ≤ rnd k) → 0 < width → 0 < height →
  LoopState rnd width height start m frontierCells n →
  ∀ f, f ∈ frontierCells ↔
       InGrid (grid m) f ∧ cellOf (grid m) f = Wall ∧
       ∃ p, f ∈ offsets p ∧ isPath (grid m) p ∧ sameLattice p start.
Proof.
  intros Hrnd Hw Hh HS f.
  pose proof (LoopState_LoopInv _ _ _ _ _ _ _ Hrnd Hw Hh HS) as (HI & _).
  apply (LoopState_LoopCounts rnd width height) in HS as (HShape & _); [|done..].
  split.
  - intros Hf. split_and!; [by apply (inv_in_grid _ _ _ HI)|by apply (inv_wall _ _ _ HI)|].
    destruct (inv_next_to_path _ _ _ HI f Hf) as (p & Hp & Hpath).
    exists p. split_and!; [by apply offsets_sym|done|].
    eapply sameLattice_trans; [by apply offsets_sameLattice|].
    by apply (inv_lattice _ _ _ HI).
  - intros (Hin & Hwall & p & Hoff & Hp & Hlat).
    by apply (shape_closed _ _ _ HShape p).
Qed.

Lemma X11_frontier_characterised_witness :
  ∃ m frontierCells,
    LoopState (λ _, 0) 3 3 (mkPosition 0 0) m frontierCells 0 ∧
    ∀ f, f ∈ frontierCells ↔
         InGrid (grid m) f ∧ cellOf (grid m) f = Wall ∧
         ∃ p, f ∈ offsets p ∧ isPath (grid m) p ∧ sameLattice p (mkPosition 0 0).
Proof.
  eexists _, _.
  assert (LoopState (λ _, 0) 3 3 (mkPosition 0 0) _ _ 0) as HS
    by (apply LoopState_enter; vm_compute; reflexivity).
  split; [exact HS|].
  apply (X11_frontier_characterised (λ _, 0) 3 3 _ _ _ _
           ltac:(intros k; simpl; lia) ltac:(lia) ltac:(lia) HS).
Defined.

(** ** The finished maze *)

(** X12 (the maze covers the lattice).  On a grid of positive width and
    height, when [generateMaze] has completed, every cell of the grid on the
    step-2 lattice of the starting cell is a Path, whatever the draws
    were. *)
Theorem X12_lattice_is_covered rnd width height fuel :
  (∀ k, 0 ≤ rnd k) → 0 < width → 0 < height →
  width * height ≤ Z.of_nat fuel →
  ∃ run m,
    generateMaze rnd fuel (initial width height) = Ok run m ∧
    ∀ p, InGrid (grid m) p → sameLattice p (startPos run) →
         cellOf (grid m) p = Path.
Proof.
  intros Hrnd Hw Hh Hfuel.
  destruct (generateMaze_final rnd width height fuel Hrnd Hw Hh Hfuel)
    as (start & n & m & Hrun & (HI & _) & (HShape & _)).
  exists (mkRun start [] n), m. split; [done|].
  by apply lattice_complete.
Qed.

Lemma X12_lattice_is_covered_witness :
  ∃ run m,
    generateMaze (λ _, 0) 9 (initial 3 3) = Ok run m ∧
    ∀ p, InGrid (grid m) p → sameLattice p (startPos run) →
         cellOf (grid m) p = Path.
Proof.
  apply (X12_lattice_is_covered (λ _, 0) 3 3 9%nat);
    [intros k; simpl; lia | lia | lia | lia].
Defined.

(** X13 (the number of iterations).  On a grid of positive width and
    height the loop of [generateMaze] runs exactly once for every cell of
    the lattice of the starting cell other than that cell: the number of
    iterations depends on the starting cell only, not on the later
    draws. *)
Theorem X13_iterations_exact rnd width height fuel :
  (∀ k, 0 ≤ rnd k) → 0 < width → 0 < height →
  width * height ≤ Z.of_nat fuel →
  ∃ run m,
    generateMaze rnd fuel (initial width height) = Ok run m ∧
    Z.of_nat (iterations run) + 1 =
      ((height - row (startPos run) mod 2 + 1) `div` 2) *
      ((width - col (startPos run) mod 2 + 1) `div` 2).
Proof.
  intros Hrnd Hw Hh Hfuel.
  destruct (generateMaze_final rnd width height fuel Hrnd Hw Hh Hfuel)
    as (start & n & m & Hrun & (HI & _ & _ & _ & Hcount) & (HShape & _)).
  exists (mkRun start [] n), m. split; [done|]. simpl.
  rewrite <- (length_latticePositions_exact width height start Hw Hh), <- Hcount.
  assert (latticeWalls (grid m) start = 0%nat) as ->; [|lia].
  unfold latticeWalls. rewrite filter_none; [done|].
  intros p [Hp Hlat]%elem_of_latticePositions.
  by rewrite (lattice_complete start (grid m) HI HShape p Hp Hlat).
Qed.

Lemma X13_iterations_exact_witness :
  ∃ run m,
    generateMaze (λ _, 0) 9 (initial 3 3) = Ok run m ∧
    Z.of_nat (iterations run) + 1 =
      ((3 - row (startPos run) mod 2 + 1) `div` 2) *
      ((3 - col (startPos run) mod 2 + 1) `div` 2).
Proof.
  apply (X13_iterations_exact (λ _, 0) 3 3 9%nat);
    [intros k; simpl; lia | lia | lia | lia].
Defined.

(** X14 (two cells for every iteration).  Every iteration of the loop turns
    exactly two Wall cells into Path cells, the chosen frontier cell and
    the cell in between: after [n] iterations the grid has [2 * n + 1] Path
    cells, and so it has when [generateMaze] has completed, with [n] the
    number of its iterations. *)
Theorem X14_path_cells_counted rnd width height fuel :
  (∀ k, 0 ≤ rnd k) → 0 < width → 0 < height →
  width * height ≤ Z.of_nat fuel →
  (∀ start m frontierCells n,
     LoopState rnd width height start m frontierCells n →
     pathCount (grid m) = (2 * n + 1)%nat) ∧
  ∃ run m,
    generateMaze rnd fuel (initial width height) = Ok run m ∧
    pathCount (grid m) = (2 * iterations run + 1)%nat.
Proof.
  intros Hrnd Hw Hh Hfuel. split.
  - intros start m fr n HS.
    by apply (LoopState_LoopCounts rnd width height) in HS as (_ & Hpaths & _).
  - destruct (generateMaze_final rnd width height fuel Hrnd Hw Hh Hfuel)
      as (start & n & m & Hrun & _ & (_ & Hpaths & _)).
    by exists (mkRun start [] n), m.
Qed.

Lemma X14_path_cells_counted_witness :
  (∀ start m frontierCells n,
     LoopState (λ _, 0) 3 3 start m frontierCells n →
     pathCount (grid m) = (2 * n + 1)%nat) ∧
  ∃ run m,
    generateMaze (λ _, 0) 9 (initial 3 3) = Ok run m ∧
    pathCount (grid m) = (2 * iterations run + 1)%nat.
Proof.
  apply (X14_path_cells_counted (λ _, 0) 3 3 9%nat);
    [intros k; simpl; lia | lia | lia | lia].
Defined.

(** X15 (the draws consumed).  [generateMaze] calls [rand()] twice for the
    starting cell and twice in every iteration, once for the frontier cell
    and once for its neighbour: the branch without a neighbour, which would
    draw once, is never taken.  After [n] iterations [2 + 2 * n] calls have
    been made. *)
Theorem X15_rand_calls rnd width height fuel :
  (∀ k, 0 ≤ rnd k) → 0 < width → 0 < height →
  width * height ≤ Z.of_nat fuel →
  (∀ start m frontierCells n,
     LoopState rnd width height start m frontierCells n →
     randCalls m = (2 + 2 * n)%nat) ∧
  ∃ run m,
    generateMaze rnd fuel (initial width height) = Ok run m ∧
    randCalls m = (2 + 2 * iterations run)%nat.
Proof.
  intros Hrnd Hw Hh Hfuel. split.
  - intros start m fr n HS.
    by apply (LoopState_LoopCounts rnd width height) in HS as (_ & _ & Hcalls).
  - destruct (generateMaze_final rnd width height fuel Hrnd Hw Hh Hfuel)
      as (start & n & m & Hrun & _ & (_ & _ & Hcalls)).
    by exists (mkRun start [] n), m.
Qed.

Lemma X15_rand_calls_witness :
  (∀ start m frontierCells n,
     LoopState (λ _, 0) 3 3 start m frontierCells n →
     randCalls m = (2 + 2 * n)%nat) ∧
  ∃ run m,
    generateMaze (λ _, 0) 9 (initial 3 3) = Ok run m ∧
    randCalls m = (2 + 2 * iterations run)%nat.
Proof.
  apply (X15_rand_calls (λ _, 0) 3 3 9%nat);
    [intros k; simpl; lia | lia | lia | lia].
Defined.

(** X16 ([main]).  For every sequence of draws, [main] returns 0: the
    maze is generated on the grid of 30 columns and 20 rows without any
    fault, and what has been written to the standard output is the
    rendering of that grid. *)
Theorem X16_main rnd fuel :
  (∀ k, 0 ≤ rnd k) → (600 ≤ fuel)%nat →
  ∃ m,
    main rnd fuel = Ok 0 m ∧
    _width (grid m) = 30 ∧ _height (grid m) = 20 ∧ wf (grid m) ∧
    stdout m = render (grid m).
Proof.
  intros Hrnd Hfuel.
  destruct (generateMaze_ok rnd 30 20 fuel Hrnd) as (start & n & m & Hrun & _ & HS);
    [lia..|].
  pose proof (LoopState_stdout rnd 30 20 _ _ _ _ Hrnd ltac:(lia) ltac:(lia) HS) as Hout.
  apply (LoopState_LoopInv rnd) in HS as (HI & _ & Hw & Hh & _); [|done|lia|lia].
  destruct (main_returns_0 rnd fuel Hrnd Hfuel) as (run & m' & Hrun' & Hmain).
  rewrite Hrun in Hrun'. injection Hrun' as <- <-.
  eexists. split; [exact Hmain|]. simpl.
  split_and!; [done|done|apply HI|]. by rewrite Hout.
Qed.

Lemma X16_main_witness :
  ∃ m,
    main (λ _, 0) 600 = Ok 0 m ∧
    _width (grid m) = 30 ∧ _height (grid m) = 20 ∧ wf (grid m) ∧
    stdout m = render (grid m).
Proof.
  apply (X16_main (λ _, 0) 600%nat); [intros k; simpl; lia | lia].
Defined.

(** ** The printed text *)

Lemma app_String c (s t : string) : String c s +:+ t = String c (s +:+ t).
Proof. reflexivity. Qed.

Lemma app_Empty (t : string) : "" +:+ t = t.
Proof. reflexivity. Qed.

Ltac norm_text :=
  repeat first [rewrite app_Empty | rewrite app_String | rewrite string_app_assoc].

Lemma string_app_cancel_l (s t u : string) : s +:+ t = s +:+ u → t = u.
Proof.
  induction s as [|c s IH]; [done|]. rewrite !app_String. intros [= H]. by apply IH.
Qed.

Lemma printed_row_inj (r1 r2 : list Cell) (t1 t2 : string) :
  (foldr String.append "" (glyph <$> r1) +:+ endl) +:+ t1 =
  (foldr String.append "" (glyph <$> r2) +:+ endl) +:+ t2 →
  r1 = r2 ∧ t1 = t2.
Proof.
  revert r2. induction r1 as [|c1 r1 IH]; intros [|c2 r2]; simpl.
  - unfold endl. norm_text. by intros [= ->].
  - destruct c2; unfold endl, glyph at 1; norm_text; done.
  - destruct c1; unfold endl, glyph at 1; norm_text; done.
  - destruct c1, c2; unfold glyph at 1 3; norm_text; intros H;
      try discriminate H; injection H as H; rewrite <- !string_app_assoc in H;
      apply IH in H as [-> ->]; done.
Qed.

Lemma printed_rows_inj (rows1 rows2 : list (list Cell)) :
  foldr String.append ""
    ((λ row, foldr String.append "" (glyph <$> row) +:+ endl) <$> rows1) =
  foldr String.append ""
    ((λ row, foldr String.append "" (glyph <$> row) +:+ endl) <$> rows2) →
  rows1 = rows2.
Proof.
  revert rows2. induction rows1 as [|r1 rows1 IH]; intros [|r2 rows2]; simpl.
  - done.
  - destruct r2 as [|[] r2]; simpl; unfold endl; try unfold glyph at 1;
      norm_text; done.
  - destruct r1 as [|[] r1]; simpl; unfold endl; try unfold glyph at 1;
      norm_text; done.
  - intros [-> H]%printed_row_inj. f_equal. by apply IH.
Qed.

(** X17 ([Grid::print], the text determines the cells).  [print] never
    fails, whatever the cells.  Two grids that print the same text have the
    same rows of cells: the glyphs of a Wall and of a Path and the newline
    start with different bytes, so the text can be read back. *)
Theorem X17_print_determines_cells m1 m2 s :
  print m1 = Ok tt (emitted m1 s) → print m2 = Ok tt (emitted m2 s) →
  _cells (grid m1) = _cells (grid m2).
Proof.
  unfold print, bind, getGrid. rewrite !print_rows.
  intros [= H1] [= H2]. apply string_app_cancel_l in H1, H2.
  apply printed_rows_inj. congruence.
Qed.

Lemma X17_print_determines_cells_witness :
  print (initial 2 1) = Ok tt (emitted (initial 2 1) ("██" +:+ endl)) ∧
  _cells (grid (initial 2 1)) = _cells (grid (initial 2 1)).
Proof.
  split; [reflexivity|].
  apply (X17_print_determines_cells (initial 2 1) (initial 2 1)
           ("██" +:+ endl)); reflexivity.
Defined.
